(** * The realtime relay (src/realtime/index.js)

    A shallow embedding of the WebSocket/RabbitMQ relay: the registry of
    client sockets [wsClients], [broadcast], the per-socket message
    handler, the queue consumer of [consumeQueue], the retry loop of
    [connectToRabbit], the heartbeat timer and the startup sequence of
    [start].

    JavaScript objects are mutable and shared, so sockets live in a heap
    (a finite map from references to socket objects) and the registry
    holds references, in insertion order as a JS [Set] iterates.  Effects
    that leave the process (frames, pings, acks, sleeps, log lines) are
    appended to a trace; exceptions are a result constructor. *)

From stdpp Require Import gmap strings list.
From Stdlib Require Import ZArith Lia Ascii.

Set Warnings "-register-all".

Open Scope Z_scope.

(** ** Sockets, effects, exceptions *)

(** [WebSocket.readyState]. *)
Inductive ready_state := CONNECTING | OPEN | CLOSING | CLOSED.

#[global] Instance ready_state_eq_dec : EqDecision ready_state.
Proof. solve_decision. Defined.

(** A [ws] socket object: the two fields the relay reads and writes, and
    [send_throws]: a call of [send] on this socket raises.  [ws] raises
    from [send] only on a socket that is still connecting, which a socket
    of the registry never is; the flag is there for the [try]/[catch]
    that both callers of [broadcast] put around it, and the statements
    about the sockets the relay has take it to be false. *)
Record ws := {
  readyState : ready_state;
  isAlive : bool;
  send_throws : bool
}.

Definition ref := nat.

Inductive exn :=
  | SyntaxError
  | SendError (client : ref)
  | ChannelClosedError
  | ConnectError (attempt : Z).

Inductive log_line :=
  | LogConnecting (attempt : Z)
  | LogConnected
  | LogConnectFailed (attempt : Z)
  | LogRetriesExhausted
  | LogWaiting (waitMs : Z)
  | LogConsuming
  | LogQueueMessage
  | LogNotJSON
  | LogProcessingError
  | LogNackError
  | LogClientConnected (total : nat)
  | LogClientDisconnected (total : nat)
  | LogListening
  | LogStartFailed.

Inductive effect :=
  | Sent (client : ref) (msg : string)
  | Pinged (client : ref)
  | Terminated (client : ref)
  | Acked (tag : nat)
  | Nacked (tag : nat) (allUpTo requeue : bool)
  | Slept (ms : Z)
  | Connect (attempt : Z)
  | AssertQueue (durable : bool)
  | Consume (noAck : bool)
  | SetInterval (ms : Z)
  | OnSIGINT
  | Exit (code : Z)
  | Log (l : log_line).

(** ** The state of the process *)

Record relay := {
  heap : gmap ref ws;
  wsClients : list ref;
  listening : bool;
  channel_open : bool;
  trace : list effect
}.

Definition set_heap (h : gmap ref ws) (st : relay) : relay :=
  {| heap := h; wsClients := wsClients st; listening := listening st;
     channel_open := channel_open st; trace := trace st |}.

Definition set_wsClients (l : list ref) (st : relay) : relay :=
  {| heap := heap st; wsClients := l; listening := listening st;
     channel_open := channel_open st; trace := trace st |}.

Definition set_channel_open (b : bool) (st : relay) : relay :=
  {| heap := heap st; wsClients := wsClients st; listening := listening st;
     channel_open := b; trace := trace st |}.

Definition emit_all (es : list effect) (st : relay) : relay :=
  {| heap := heap st; wsClients := wsClients st; listening := listening st;
     channel_open := channel_open st; trace := trace st ++ es |}.

(** ** A state and exception monad *)

(** [Timeout] is the model's own outcome: the fuel of an unbounded loop
    ran out.  No handler catches it. *)
Inductive result (A : Type) :=
  | Normal (a : A)
  | Throw (e : exn)
  | Timeout.
Arguments Normal {A} a.
Arguments Throw {A} e.
Arguments Timeout {A}.

Definition M (A : Type) : Type := relay → result A * relay.

Definition ret {A} (a : A) : M A := fun st => (Normal a, st).

Definition throw {A} (e : exn) : M A := fun st => (Throw e, st).

Definition bind {A B} (m : M A) (k : A → M B) : M B :=
  fun st =>
    match m st with
    | (Normal a, st') => k a st'
    | (Throw e, st') => (Throw e, st')
    | (Timeout, st') => (Timeout, st')
    end.

Definition try_catch {A} (m : M A) (handler : exn → M A) : M A :=
  fun st =>
    match m st with
    | (Throw e, st') => handler e st'
    | r => r
    end.

Definition get : M relay := fun st => (Normal st, st).
Definition modify (f : relay → relay) : M unit := fun st => (Normal tt, f st).
Definition emit (e : effect) : M unit := modify (emit_all [e]).
Definition console (l : log_line) : M unit := emit (Log l).

#[global] Instance relay_ret : MRet M := @ret.
#[global] Instance relay_bind : MBind M := fun A B k m => bind m k.

(** [for (const x of xs) body]. *)
Fixpoint for_of {A} (xs : list A) (body : A → M unit) : M unit :=
  match xs with
  | [] => ret tt
  | x :: xs' => body x;; for_of xs' body
  end.

(** [for (const x of xs) body] inside a function, where the body may
    execute [return]: the body yields [true] when it returned, which ends
    the loop and the function. *)
Fixpoint for_of_return {A} (xs : list A) (body : A → M bool) : M bool :=
  match xs with
  | [] => ret false
  | x :: xs' =>
      returned ← body x;
      if (returned : bool) then ret true else for_of_return xs' body
  end.

(** ** Socket operations *)

(** A socket that the heap does not hold cannot be in the registry of a
    running relay; reading one gives a closed socket. *)
Definition no_ws : ws :=
  {| readyState := CLOSED; isAlive := false; send_throws := false |}.

Definition the_ws (st : relay) (client : ref) : ws :=
  default no_ws (heap st !! client).

Definition deref (client : ref) : M ws :=
  fun st => (Normal (the_ws st client), st).

Definition set_isAlive (client : ref) (b : bool) : M unit :=
  modify (fun st =>
    set_heap (alter (fun w => {| readyState := readyState w; isAlive := b;
                                 send_throws := send_throws w |}) client (heap st)) st).

Definition set_readyState (client : ref) (r : ready_state) : M unit :=
  modify (fun st =>
    set_heap (alter (fun w => {| readyState := r; isAlive := isAlive w;
                                 send_throws := send_throws w |}) client (heap st)) st).

(** [client.send(msg)]. *)
Definition send (client : ref) (msg : string) : M unit :=
  w ← deref client;
  if send_throws w then throw (SendError client) else emit (Sent client msg).

(** [Array.from(wsClients)]: a copy of the registry, in insertion order. *)
Definition Array_from_wsClients : M (list ref) :=
  fun st => (Normal (wsClients st), st).

(** ** broadcast *)

Definition broadcast (msg : string) : M unit :=
  snapshot ← Array_from_wsClients;
  for_of snapshot (fun client =>
    w ← deref client;
    if decide (readyState w = OPEN) then send client msg else ret tt).

(** ** JSON values and [JSON.stringify] *)

(** A Number that [JSON.parse] produces: a finite double, or an infinity
    (the parse of a literal beyond the range of doubles; NaN has no
    literal).  A finite number is given by the decimal that
    [Number::toString] prints for it, the shortest one that reads back as
    the same double: [Decimal negative mantissa exponent] is
    [mantissa * 10^exponent], negated when [negative].  Trailing zeros of
    the mantissa count as part of the exponent, and a mantissa of 0 is
    zero, of either sign. *)
Inductive number :=
  | Decimal (negative : bool) (mantissa : N) (exponent : Z)
  | Infinity (negative : bool).

(** The number of an integer. *)
Definition integer (z : Z) : number := Decimal (z <? 0) (Z.abs_N z) 0.

(** The values [JSON.parse] produces; an object keeps its own properties
    in enumeration order. *)
Inductive json :=
  | JNull
  | JBool (b : bool)
  | JNumber (n : number)
  | JString (s : string)
  | JArray (items : list json)
  | JObject (fields : list (string * json)).

Definition digit_char (d : N) : ascii :=
  ascii_of_N (48 + d).

Fixpoint N_digits (fuel : nat) (n : N) (acc : string) : string :=
  let acc' := String (digit_char (n mod 10)) acc in
  match fuel with
  | O => acc'
  | S fuel' => if (n / 10 =? 0)%N then acc' else N_digits fuel' (n / 10)%N acc'
  end.

(** The decimal digits of [n]. *)
Definition N_to_string (n : N) : string :=
  N_digits (N.to_nat (N.log2 n)) n "".

(** [m * 10^e] with the trailing zeros of [m] moved into the exponent. *)
Fixpoint strip_zeros (fuel : nat) (m : N) (e : Z) : N * Z :=
  match fuel with
  | O => (m, e)
  | S fuel' =>
      if (m mod 10 =? 0)%N then strip_zeros fuel' (m / 10)%N (e + 1) else (m, e)
  end.

Definition shortest (m : N) (e : Z) : N * Z :=
  strip_zeros (N.to_nat (N.log2 m)) m e.

Fixpoint zeros (n : nat) : string :=
  match n with
  | O => ""
  | S n' => String "0" (zeros n')
  end.

Fixpoint first_chars (n : nat) (s : string) : string :=
  match n, s with
  | S n', String c s' => String c (first_chars n' s')
  | _, _ => ""
  end.

Fixpoint skip_chars (n : nat) (s : string) : string :=
  match n, s with
  | S n', String c s' => skip_chars n' s'
  | _, _ => s
  end.

(** [Number::toString] (radix 10) of the positive number [s * 10^e],
    where [s] does not end in 0.  With [k] the number of digits of [s]
    and [n = e + k]: the digits and [n - k] zeros when [k <= n <= 21];
    the digits with a point after the first [n] when [0 < n <= 21];
    [0.] and [-n] zeros before the digits when [-6 < n <= 0]; and
    otherwise the exponent form, with a point after the first digit when
    there are more. *)
Definition positive_toString (s : N) (e : Z) : string :=
  let digits := N_to_string s in
  let k := Z.of_nat (String.length digits) in
  let n := e + k in
  if (k <=? n) && (n <=? 21) then digits +:+ zeros (Z.to_nat (n - k))
  else if (0 <? n) && (n <=? 21) then
    first_chars (Z.to_nat n) digits +:+ "." +:+ skip_chars (Z.to_nat n) digits
  else if (-6 <? n) && (n <=? 0) then
    "0." +:+ zeros (Z.to_nat (- n)) +:+ digits
  else
    let exponent :=
      (if n - 1 <? 0 then "-" else "+") +:+ N_to_string (Z.abs_N (n - 1)) in
    if k =? 1 then digits +:+ "e" +:+ exponent
    else first_chars 1 digits +:+ "." +:+ skip_chars 1 digits +:+ "e" +:+ exponent.

Definition Number_toString (x : number) : string :=
  match x with
  | Infinity false => "Infinity"
  | Infinity true => "-Infinity"
  | Decimal negative m e =>
      if (m =? 0)%N then "0"
      else
        let (s, e') := shortest m e in
        (if negative then "-" else "") +:+ positive_toString s e'
  end.

(** [x === y] on numbers, and [x] being [+0] or [-0]. *)
Definition number_eqb (x y : number) : bool :=
  match x, y with
  | Decimal nx mx ex, Decimal ny my ey =>
      if (mx =? 0)%N then (my =? 0)%N
      else
        let (sx, fx) := shortest mx ex in
        let (sy, fy) := shortest my ey in
        Bool.eqb nx ny && (sx =? sy)%N && (fx =? fy)
  | Infinity nx, Infinity ny => Bool.eqb nx ny
  | _, _ => false
  end.

Definition is_zero (x : number) : bool :=
  match x with
  | Decimal _ m _ => (m =? 0)%N
  | Infinity _ => false
  end.

Definition dquote : ascii := ascii_of_N 34.

Definition hex_char (d : N) : ascii :=
  if (d <? 10)%N then ascii_of_N (48 + d) else ascii_of_N (87 + d).

(** QuoteJSONString, one code unit. *)
Definition escape_char (c : ascii) : string :=
  let n := N_of_ascii c in
  if (n =? 34)%N then String "\" (String dquote "") else
  if (n =? 92)%N then "\\" else
  if (n =? 8)%N then "\b" else
  if (n =? 9)%N then "\t" else
  if (n =? 10)%N then "\n" else
  if (n =? 12)%N then "\f" else
  if (n =? 13)%N then "\r" else
  if (n <? 32)%N then
    String "\" (String "u" (String "0" (String "0"
      (String (hex_char (n / 16)) (String (hex_char (n mod 16)) "")))))
  else String c "".

Fixpoint escape (s : string) : string :=
  match s with
  | EmptyString => ""
  | String c s' => escape_char c +:+ escape s'
  end.

Definition quote (s : string) : string :=
  String dquote (escape s +:+ String dquote "").

(** The serialized elements, separated by commas. *)
Fixpoint join (parts : list string) : string :=
  match parts with
  | [] => ""
  | [x] => x
  | x :: parts' => x +:+ "," +:+ join parts'
  end.

Fixpoint JSON_stringify (v : json) : string :=
  match v with
  | JNull => "null"
  | JBool true => "true"
  | JBool false => "false"
  | JNumber (Infinity _) => "null"
  | JNumber n => Number_toString n
  | JString s => quote s
  | JArray items =>
      "[" +:+ join (map JSON_stringify items) +:+ "]"
  | JObject fields =>
      "{" +:+ join (map (fun '(k, x) => quote k +:+ ":" +:+ JSON_stringify x) fields)
          +:+ "}"
  end.

(** ** JSON texts *)

(** The grammar of RFC 8259, without insignificant whitespace. *)

Definition is_digit (c : ascii) : Prop :=
  (48 ≤ N_of_ascii c ≤ 57)%N.

Definition is_digit19 (c : ascii) : Prop :=
  (49 ≤ N_of_ascii c ≤ 57)%N.

Definition is_hex (c : ascii) : Prop :=
  (48 ≤ N_of_ascii c ≤ 57)%N ∨ (65 ≤ N_of_ascii c ≤ 70)%N
  ∨ (97 ≤ N_of_ascii c ≤ 102)%N.

(** The characters that may follow a backslash, [u] apart. *)
Definition is_escape (c : ascii) : Prop :=
  N_of_ascii c ∈ [34; 92; 47; 98; 102; 110; 114; 116]%N.

Fixpoint all_digits (s : string) : Prop :=
  match s with
  | EmptyString => True
  | String c s' => is_digit c ∧ all_digits s'
  end.

(** [int = zero / ( digit1-9 *DIGIT )], [frac = decimal-point 1*DIGIT],
    [exp = e [ minus / plus ] 1*DIGIT] and
    [number = [ minus ] int [ frac ] [ exp ]]. *)
Inductive json_int : string → Prop :=
  | int_zero : json_int "0"
  | int_digits c ds : is_digit19 c → all_digits ds → json_int (String c ds).

Inductive json_frac : string → Prop :=
  | frac_none : json_frac ""
  | frac_digits c ds :
      is_digit c → all_digits ds → json_frac (String "." (String c ds)).

Inductive json_exp : string → Prop :=
  | exp_none : json_exp ""
  | exp_digits e sign c ds :
      e = "e"%char ∨ e = "E"%char →
      sign = ""%string ∨ sign = "+"%string ∨ sign = "-"%string →
      is_digit c → all_digits ds →
      json_exp (String e (sign +:+ String c ds)).

Inductive json_number : string → Prop :=
  | number_parts minus i f e :
      minus = ""%string ∨ minus = "-"%string →
      json_int i → json_frac f → json_exp e →
      json_number (minus +:+ i +:+ f +:+ e).

(** The inside of a string literal. *)
Inductive json_chars : string → Prop :=
  | chars_nil : json_chars ""
  | chars_plain c s :
      (32 ≤ N_of_ascii c)%N → N_of_ascii c ≠ 34%N → N_of_ascii c ≠ 92%N →
      json_chars s → json_chars (String c s)
  | chars_escape c s :
      is_escape c → json_chars s → json_chars (String "\" (String c s))
  | chars_unicode h1 h2 h3 h4 s :
      is_hex h1 → is_hex h2 → is_hex h3 → is_hex h4 → json_chars s →
      json_chars (String "\" (String "u"
        (String h1 (String h2 (String h3 (String h4 s)))))).

Definition literal (body : string) : string :=
  String dquote (body +:+ String dquote "").

Inductive json_text : string → Prop :=
  | text_null : json_text "null"
  | text_true : json_text "true"
  | text_false : json_text "false"
  | text_number s : json_number s → json_text s
  | text_string body : json_chars body → json_text (literal body)
  | text_array s : json_elements s → json_text ("[" +:+ s +:+ "]")
  | text_object s : json_members s → json_text ("{" +:+ s +:+ "}")
with json_elements : string → Prop :=
  | elements_none : json_elements ""
  | elements_some s : json_elements1 s → json_elements s
with json_elements1 : string → Prop :=
  | elements_one s : json_text s → json_elements1 s
  | elements_more s r :
      json_text s → json_elements1 r → json_elements1 (s +:+ "," +:+ r)
with json_members : string → Prop :=
  | members_none : json_members ""
  | members_some s : json_members1 s → json_members s
with json_members1 : string → Prop :=
  | members_one m : json_member m → json_members1 m
  | members_more m r :
      json_member m → json_members1 r → json_members1 (m +:+ "," +:+ r)
with json_member : string → Prop :=
  | member_pair k s :
      json_chars k → json_text s → json_member (literal k +:+ ":" +:+ s).

(** ** The relay *)

Section Relay.

(** [JSON.parse] of the platform: [None] is a thrown SyntaxError. *)
Variable JSON_parse : string → option json.

(** Configuration, as [parseInt] read it from the environment. *)
Variable MAX_RETRIES : Z.
Variable INITIAL_DELAY_MS : Z.

(** The world outside: whether the broker answers the k-th attempt of
    [amqp.connect] and [createChannel], the k-th draw of [Math.random] (a
    double in [0,1), given by its numerator over 2^53), and the clients
    that reach the listening port while the k-th attempt is awaited. *)
Variable amqp_connect : Z → bool.
Variable Math_random : Z → Z.
Variable arrivals : Z → list ws.

Definition JSON_parse_M (text : string) : M json :=
  match JSON_parse text with
  | Some v => ret v
  | None => throw SyntaxError
  end.

(** *** The registry: a JS [Set] of socket references *)

Definition Set_add (r : ref) (l : list ref) : list ref :=
  if decide (r ∈ l) then l else l ++ [r].

Definition Set_delete (r : ref) (l : list ref) : list ref :=
  filter (fun x => x ≠ r) l.

(** *** wss.on('connection') and the handlers it installs *)

Definition on_connection (client : ref) : M unit :=
  set_isAlive client true;;
  modify (fun st => set_wsClients (Set_add client (wsClients st)) st);;
  st ← get;
  console (LogClientConnected (length (wsClients st))).

Definition on_pong (client : ref) : M unit :=
  set_isAlive client true.

Definition on_message (message : string) : M unit :=
  try_catch
    (data ← JSON_parse_M message;
     broadcast (JSON_stringify data))
    (fun e => console LogNotJSON).

Definition on_close (client : ref) : M unit :=
  modify (fun st => set_wsClients (Set_delete client (wsClients st)) st);;
  st ← get;
  console (LogClientDisconnected (length (wsClients st))).

(** A client reaches the port: the server, when it listens, allocates the
    socket object and fires 'connection'. *)
Definition accept (w : ws) : M unit :=
  st ← get;
  if listening st then
    let client := fresh (dom (heap st)) in
    modify (set_heap (<[client := w]> (heap st)));;
    on_connection client
  else ret tt.

(** *** The queue consumer *)

Record queue_msg := {
  deliveryTag : nat;
  content : string
}.

(** [channel.ack] and [channel.nack] raise on a closed channel. *)
Definition channel_ack (msg : queue_msg) : M unit :=
  st ← get;
  if channel_open st then emit (Acked (deliveryTag msg))
  else throw ChannelClosedError.

Definition channel_nack (msg : queue_msg) (allUpTo requeue : bool) : M unit :=
  st ← get;
  if channel_open st then emit (Nacked (deliveryTag msg) allUpTo requeue)
  else throw ChannelClosedError.

Definition raw (content : string) : json :=
  JObject [("raw"%string, JString content)].

Definition wrap (payload : json) : json :=
  JObject [("source"%string, JString "realtime"); ("payload"%string, payload)].

(** The callback given to [channel.consume]; [None] is the null delivery
    of a cancelled consumer. *)
Definition consumer (msg : option queue_msg) : M unit :=
  match msg with
  | None => ret tt
  | Some msg =>
      try_catch
        (let content := content msg in
         payload ← try_catch (JSON_parse_M content) (fun e => ret (raw content));
         console LogQueueMessage;;
         broadcast (JSON_stringify (wrap payload));;
         channel_ack msg)
        (fun err =>
           console LogProcessingError;;
           try_catch (channel_nack msg false false)
                     (fun e => console LogNackError))
  end.

Definition consumeQueue : M unit :=
  st ← get;
  (if channel_open st then emit (AssertQueue true) else throw ChannelClosedError);;
  console LogConsuming;;
  st ← get;
  if channel_open st then emit (Consume false) else throw ChannelClosedError.

(** *** The heartbeat timer *)

(** [ws.terminate()]: the socket is destroyed; its 'close' event comes
    later, from the event loop. *)
Definition terminate (client : ref) : M unit :=
  w ← deref client;
  if decide (readyState w = CLOSED) then ret tt
  else set_readyState client CLOSING;; emit (Terminated client).

(** [ws.ping(cb)]: on a socket that is not open the error goes to the
    callback, which ignores it. *)
Definition ping (client : ref) : M unit :=
  w ← deref client;
  if decide (readyState w = OPEN) then emit (Pinged client) else ret tt.

(** The body of the loop of the heartbeat; [true] is its [return]. *)
Definition heartbeat_body (client : ref) : M bool :=
  w ← deref client;
  if negb (isAlive w) then terminate client;; ret true
  else set_isAlive client false;; ping client;; ret false.

(** The callback given to [setInterval]. *)
Definition heartbeat : M unit :=
  snapshot ← Array_from_wsClients;
  for_of_return snapshot heartbeat_body;;
  ret tt.

(** The event loop after a tick: every destroyed socket emits 'close'. *)
Definition closing (st : relay) (client : ref) : bool :=
  bool_decide (readyState (the_ws st client) = CLOSING).

Definition fire_close_events : M unit :=
  st ← get;
  for_of (filter (fun c => closing st c = true) (wsClients st)) (fun client =>
    set_readyState client CLOSED;; on_close client).

Definition monitor_tick : M unit :=
  heartbeat;; fire_close_events.

(** *** connectToRabbit *)

Definition sleep (ms : Z) : M unit := emit (Slept ms).

(** [Math.floor(Math.random() * 300)] at the k-th attempt. *)
Definition jitter_of (k : Z) : Z :=
  (Math_random k mod 2 ^ 53) * 300 / 2 ^ 53.

(** The body of [while (true)].  [attempt] and [delay] are the two
    locals; the fuel bounds the number of iterations the model runs. *)
Fixpoint connect_loop (fuel : nat) (attempt delay : Z) : M unit :=
  match fuel with
  | O => fun st => (Timeout, st)
  | S fuel' =>
      let attempt := attempt + 1 in
      connected ← try_catch
        (console (LogConnecting attempt);;
         emit (Connect attempt);;
         for_of (arrivals attempt) accept;;
         (if amqp_connect attempt then modify (set_channel_open true)
          else throw (ConnectError attempt));;
         console LogConnected;;
         ret true)
        (fun err =>
           let isLast := bool_decide (MAX_RETRIES ≤ attempt) in
           console (LogConnectFailed attempt);;
           if isLast then
             console LogRetriesExhausted;;
             throw err
           else
             let jitter := jitter_of attempt in
             let waitMs := delay + jitter in
             console (LogWaiting waitMs);;
             sleep waitMs;;
             ret false);
      if (connected : bool) then ret tt
      else connect_loop fuel' attempt (Z.min (delay * 2) 30000)
  end.

Definition connectToRabbit (fuel : nat) : M unit :=
  connect_loop fuel 0 INITIAL_DELAY_MS.

(** *** start, and the module's top level *)

Definition start (fuel : nat) : M unit :=
  try_catch
    (connectToRabbit fuel;;
     consumeQueue;;
     emit (SetInterval 30000);;
     console LogListening;;
     emit OnSIGINT)
    (fun err =>
       console LogStartFailed;;
       emit (Exit 1)).

Definition set_listening (b : bool) (st : relay) : relay :=
  {| heap := heap st; wsClients := wsClients st; listening := b;
     channel_open := channel_open st; trace := trace st |}.

(** The process before the module is loaded. *)
Definition boot : relay :=
  {| heap := ∅; wsClients := []; listening := false;
     channel_open := false; trace := [] |}.

(** Loading the module: the WebSocket server is constructed on its port,
    the registry is created, and [start] is called. *)
Definition main (fuel : nat) : M unit :=
  modify (set_listening true);;
  modify (set_wsClients []);;
  start fuel.

(** ** What a run of [broadcast] does *)

Definition is_open (st : relay) (client : ref) : bool :=
  bool_decide (readyState (the_ws st client) = OPEN).

(** The send to [client] would be attempted and would raise. *)
Definition send_fails (st : relay) (client : ref) : bool :=
  is_open st client && send_throws (the_ws st client).

(** The clients of a snapshot that the loop reaches and sends to. *)
Fixpoint delivered (st : relay) (snapshot : list ref) : list ref :=
  match snapshot with
  | [] => []
  | c :: l =>
      if send_fails st c then []
      else if is_open st c then c :: delivered st l
      else delivered st l
  end.

(** The client at which the loop is abandoned, if any. *)
Fixpoint abandoned_at (st : relay) (snapshot : list ref) : option ref :=
  match snapshot with
  | [] => None
  | c :: l => if send_fails st c then Some c else abandoned_at st l
  end.

(** The frame [msg], sent to each of [clients]. *)
Definition frames (msg : string) (clients : list ref) : list effect :=
  map (fun c => Sent c msg) clients.

(** How [broadcast] ends when the loop is abandoned at [failure]. *)
Definition outcome_of (failure : option ref) : result unit :=
  match failure with
  | None => Normal tt
  | Some c => Throw (SendError c)
  end.

(** ** What a run of [connectToRabbit] leaves in the trace *)

(** The waits and the connection attempts of a trace, in order. *)
Definition sleeps (tr : list effect) : list Z :=
  omap (fun e => match e with Slept ms => Some ms | _ => None end) tr.

Definition attempts (tr : list effect) : list Z :=
  omap (fun e => match e with Connect k => Some k | _ => None end) tr.

(** The log line of an accepted client. *)
Definition is_log (e : effect) : Prop :=
  match e with Log (LogClientConnected _) => True | _ => False end.

(** The effects of [connectToRabbit] and of the clients accepted while
    it runs. *)
Definition connect_phase (e : effect) : Prop :=
  match e with
  | Connect _ | Slept _ => True
  | Log (LogConnecting _) | Log LogConnected | Log (LogConnectFailed _)
  | Log LogRetriesExhausted | Log (LogWaiting _)
  | Log (LogClientConnected _) => True
  | _ => False
  end.

(** The value of [delay] after [k] more failed attempts. *)
Fixpoint delay_after (k : nat) (delay : Z) : Z :=
  match k with
  | O => delay
  | S k' => delay_after k' (Z.min (delay * 2) 30000)
  end.

(** The waits of [k] failed attempts that follow attempt [attempt]. *)
Fixpoint waits (k : nat) (attempt delay : Z) : list Z :=
  match k with
  | O => []
  | S k' =>
      (delay + jitter_of (attempt + 1))
      :: waits k' (attempt + 1) (Z.min (delay * 2) 30000)
  end.

(** The numbers of the [k] attempts that follow attempt [attempt]. *)
Fixpoint attempts_from (k : nat) (attempt : Z) : list Z :=
  match k with
  | O => []
  | S k' => (attempt + 1) :: attempts_from k' (attempt + 1)
  end.

(** [st'] is [st] after the effects [new], with the server as it was. *)
Definition extends (st st' : relay) (new : list effect) : Prop :=
  trace st' = trace st ++ new ∧ listening st' = listening st.

(** ** What the consumer does with a delivery *)

(** What the consumer hands to [broadcast] for a delivery. *)
Definition payload_of (content : string) : json :=
  match JSON_parse content with
  | Some p => p
  | None => raw content
  end.

(** The acks and nacks in a trace. *)
Definition is_settlement (e : effect) : bool :=
  match e with
  | Acked _ | Nacked _ _ _ => true
  | _ => false
  end.

Definition settlements (tr : list effect) : list effect :=
  filter (fun e => is_settlement e = true) tr.

(** What the consumer does about the delivery once [broadcast] is over. *)
Definition settle (msg : queue_msg) (st : relay) : list effect :=
  match abandoned_at st (wsClients st) with
  | None =>
      if channel_open st then [Acked (deliveryTag msg)]
      else [Log LogProcessingError; Log LogNackError]
  | Some _ =>
      Log LogProcessingError
      :: (if channel_open st then [Nacked (deliveryTag msg) false false]
          else [Log LogNackError])
  end.

(** ** Accepted clients, probes, and the effects of a run *)

(** The server listens and every registered socket is in the heap. *)
Definition registry_ok (st : relay) : Prop :=
  listening st = true ∧ ∀ r, r ∈ wsClients st → r ∈ dom (heap st).

(** The log lines of [n] clients accepted in a row, the registry
    growing from [first]. *)
Definition connected_logs (first n : nat) : list effect :=
  map (fun total => Log (LogClientConnected total)) (seq first n).

(** A ping or a termination of one of [clients]. *)
Definition probe_of (clients : list ref) (e : effect) : Prop :=
  ∃ y, (e = Pinged y ∨ e = Terminated y) ∧ y ∈ clients.

(** The effects of a run that starts in [st] and ends in [st']. *)
Definition new_effects (st st' : relay) : list effect :=
  drop (length (trace st)) (trace st').

(** ** Concrete sockets, brokers and messages *)

Definition socket (r : ready_state) (alive throws : bool) : ws :=
  {| readyState := r; isAlive := alive; send_throws := throws |}.

(** A running relay whose registry holds the given sockets, as clients
    1, 2, 3, ... in the order they connected. *)
Definition relay_of (sockets : list ws) : relay :=
  {| heap := list_to_map (zip (seq 1 (length sockets)) sockets);
     wsClients := seq 1 (length sockets);
     listening := true;
     channel_open := true;
     trace := [] |}.

(** Brokers that never answer, or answer from the [k]-th attempt on;
    draws of [Math.random] that are always 1/2, or always 0; and a port
    nobody connects to during startup. *)
Definition broker_down : Z → bool := fun _ => false.
Definition broker_up_from (k : Z) : Z → bool := fun i => bool_decide (k ≤ i).
Definition random_half : Z → Z := fun _ => 2 ^ 52.
Definition random_zero : Z → Z := fun _ => 0.
Definition nobody : Z → list ws := fun _ => [].

(** [{action: share_item, item: {id: n}}]. *)
Definition share_item (n : Z) : json :=
  JObject [("action"%string, JString "share_item");
           ("item"%string, JObject [("id"%string, JNumber (integer n))])].

(** A [JSON.parse] that is known at one text: the serialization of [v]
    parses to [v].  The other texts the examples below feed it are not
    JSON. *)
Definition parse_only (v : json) : string → option json :=
  fun text => if decide (text = JSON_stringify v) then Some v else None.

(** A [JSON.parse] that is known at the serializations of several
    values. *)
Definition parse_table (values : list json) : string → option json :=
  fun text => find (fun v => bool_decide (text = JSON_stringify v)) values.

(** A JSON text written with apostrophes in the place of double quotes. *)
Fixpoint written (s : string) : string :=
  match s with
  | EmptyString => ""
  | String c s' =>
      String (if decide (c = "'"%char) then dquote else c) (written s')
  end.

(** One client reaches the port while the first attempt is awaited. *)
Definition one_early_client : Z → list ws :=
  fun k => if decide (k = 1) then [socket OPEN false false] else [].

(** ** The event loop *)

(** What the event loop can hand to the relay once the module is loaded:
    a client reaching the port, the events of a registered socket, a
    delivery of the queue, a firing of the heartbeat timer. *)
Inductive event :=
  | EvConnection (w : ws)
  | EvMessage (message : string)
  | EvPong (client : ref)
  | EvClose (client : ref)
  | EvDelivery (msg : option queue_msg)
  | EvHeartbeat.

Definition dispatch (e : event) : M unit :=
  match e with
  | EvConnection w => accept w
  | EvMessage message => on_message message
  | EvPong client => on_pong client
  | EvClose client => on_close client
  | EvDelivery msg => consumer msg
  | EvHeartbeat => heartbeat
  end.

(** The state after a sequence of events, each handled to its end before
    the next. *)
Fixpoint run_events (es : list event) (st : relay) : relay :=
  match es with
  | [] => st
  | e :: es' => run_events es' (dispatch e st).2
  end.

(** No socket is registered twice and every registered socket exists. *)
Definition registry_inv (st : relay) : Prop :=
  NoDup (wsClients st) ∧ ∀ r, r ∈ wsClients st → r ∈ dom (heap st).

#[global] Instance log_line_eq_dec : EqDecision log_line.
Proof. solve_decision. Defined.

#[global] Instance effect_eq_dec : EqDecision effect.
Proof. solve_decision. Defined.

(** How often [e] occurs in a trace. *)
Definition occurrences (e : effect) (tr : list effect) : nat :=
  length (filter (fun x => x = e) tr).

(** [st'] differs from [st] in the fields of one socket and in the
    trace, to which it adds [new]. *)
Definition touches (x : ref) (st st' : relay) (new : list effect) : Prop :=
  trace st' = trace st ++ new
  ∧ wsClients st' = wsClients st
  ∧ dom (heap st') = dom (heap st)
  ∧ listening st' = listening st
  ∧ channel_open st' = channel_open st
  ∧ ∀ y, y ≠ x → the_ws st' y = the_ws st y.

(** The pings of a tick to the open sockets among [l]. *)
Definition pings (st : relay) (l : list ref) : list effect :=
  map Pinged (filter (fun c => is_open st c = true) l).

(** [st'] has the registry, the sockets' references, the server and the
    channel of [st]. *)
Definition same_frame (st st' : relay) : Prop :=
  wsClients st' = wsClients st
  ∧ dom (heap st') = dom (heap st)
  ∧ listening st' = listening st
  ∧ channel_open st' = channel_open st.

(** What one handled event may do: it extends the trace by [new], sends
    frames only to sockets that were registered and open, forgets no
    socket object, registers only sockets that were registered or did
    not exist before, and keeps the registry well formed. *)
Definition step_ok (st st' : relay) (new : list effect) : Prop :=
  trace st' = trace st ++ new
  ∧ (∀ c m, Sent c m ∈ new → c ∈ wsClients st ∧ is_open st c = true)
  ∧ (∀ r, r ∈ dom (heap st) → r ∈ dom (heap st'))
  ∧ (∀ r, r ∈ wsClients st' → r ∈ wsClients st ∨ r ∉ dom (heap st))
  ∧ registry_inv st'.

(** The socket [c] exists and is not registered. *)
Definition gone (c : ref) (st : relay) : Prop :=
  (c ∉ wsClients st) ∧ c ∈ dom (heap st).

(** The frames of a trace, with their receivers. *)
Definition sent_frames (tr : list effect) : list (ref * string) :=
  omap (fun e => match e with Sent c m => Some (c, m) | _ => None end) tr.

(** ** The browser client (src/frontend/src/components/ItemList.vue) *)

(** A JavaScript value read out of parsed JSON: [None] is [undefined]. *)
Definition js : Type := option json.

(** ToBoolean. *)
Definition truthy (v : json) : bool :=
  match v with
  | JNull => false
  | JBool b => b
  | JNumber n => negb (is_zero n)
  | JString s => negb (String.eqb s "")
  | JArray _ | JObject _ => true
  end.

Definition truthy_js (v : js) : bool :=
  match v with
  | None => false
  | Some v => truthy v
  end.

Fixpoint own_property (fields : list (string * json)) (key : string) : js :=
  match fields with
  | [] => None
  | (k, v) :: fields' =>
      if String.eqb k key then Some v else own_property fields' key
  end.

(** [v.key] for a value that is not [null] and a name that no prototype
    defines ([source], [payload], [action], [item], [id]): the own
    property of an object, which holds a name once, and [undefined] on
    anything else. *)
Definition prop (v : json) (key : string) : js :=
  match v with
  | JObject fields => own_property fields key
  | _ => None
  end.

(** [a === b] for two values that do not share an object: primitives
    compare by value, and two objects or arrays are never the same. *)
Definition strict_eq (a b : js) : bool :=
  match a, b with
  | None, None => true
  | Some JNull, Some JNull => true
  | Some (JBool x), Some (JBool y) => Bool.eqb x y
  | Some (JNumber x), Some (JNumber y) => number_eqb x y
  | Some (JString x), Some (JString y) => String.eqb x y
  | _, _ => false
  end.

(** The reactive state of the component that the handler writes. *)
Record client := {
  items : list json;
  selectedId : js
}.

(** How a call of the handler ends: normally, or with the TypeError of
    reading [id] of a [null] entry of [items]. *)
Inductive handled :=
  | Handled (st : client)
  | TypeError (st : client).

(** [items.value.some((it) => it.id === id)]; [None] is the TypeError. *)
Fixpoint some_has_id (l : list json) (id : js) : option bool :=
  match l with
  | [] => Some false
  | JNull :: _ => None
  | it :: l' => if strict_eq (prop it "id") id then Some true else some_has_id l' id
  end.

(** The payload the handler looks at: the [payload] of a wrapper, or the
    message itself. *)
Definition normalize (parsed : json) : json :=
  if truthy parsed && truthy_js (prop parsed "source")
     && truthy_js (prop parsed "payload")
  then default parsed (prop parsed "payload")
  else parsed.

(** [handleIncomingMessage] from the parsed message on. *)
Definition handle_parsed (parsed : json) (st : client) : handled :=
  let payload := normalize parsed in
  if truthy payload
     && strict_eq (prop payload "action") (Some (JString "share_item"))
     && truthy_js (prop payload "item")
  then
    match prop payload "item" with
    | Some shared =>
        let st1 := {| items := items st; selectedId := prop shared "id" |} in
        match some_has_id (items st) (prop shared "id") with
        | None => TypeError st1
        | Some true => Handled st1
        | Some false =>
            Handled {| items := shared :: items st;
                       selectedId := prop shared "id" |}
        end
    | None => Handled st
    end
  else Handled st.

Definition handleIncomingMessage (raw : string) (st : client) : handled :=
  match JSON_parse raw with
  | None => Handled st
  | Some parsed => handle_parsed parsed st
  end.

(** The message [sendSharedItem] serializes for [item]. *)
Definition share_event (item : json) : json :=
  JObject [("action"%string, JString "share_item"); ("item"%string, item)].

(** [scheduleReconnect]: the delay of the reconnection it schedules and
    the new value of [reconnectDelay]. *)
Definition scheduleReconnect (reconnectDelay : Z) : Z * Z :=
  (reconnectDelay, Z.min (reconnectDelay * 2) 30000).

(** The delays of [n] reconnections in a row. *)
Fixpoint reconnect_delays (n : nat) (reconnectDelay : Z) : list Z :=
  match n with
  | O => []
  | S n' =>
      let (delay, next) := scheduleReconnect reconnectDelay in
      delay :: reconnect_delays n' next
  end.

(** A value that is not an object or an array. *)
Definition primitive (v : js) : bool :=
  match v with
  | Some (JArray _) | Some (JObject _) => false
  | _ => true
  end.

(** The component as it is mounted: no item, nothing selected
    ([selectedId] is [null]). *)
Definition initial_client : client :=
  {| items := []; selectedId := Some JNull |}.

(** The state after [n] firings of the heartbeat timer, each followed by
    the close events it caused, with no other event in between. *)
Fixpoint ticks (n : nat) (st : relay) : relay :=
  match n with
  | O => st
  | S n' => ticks n' (monitor_tick st).2
  end.

(** A frame that is the serialization of a JSON value, and a JSON text;
    an effect that is not a frame. *)
Definition json_frame (e : effect) : Prop :=
  match e with
  | Sent _ m => (∃ v, m = JSON_stringify v) ∧ json_text m
  | _ => True
  end.

(** The effects of a relay that serves: the queue declared and consumed,
    the heartbeat timer set, readiness logged, the signal handler
    installed. *)
Definition serving (e : effect) : bool :=
  match e with
  | AssertQueue _ | Consume _ | SetInterval _ | OnSIGINT => true
  | Log LogConsuming | Log LogListening => true
  | _ => false
  end.

(** ** Running the monad *)

Lemma emit_all_nil st : emit_all [] st = st.
Proof. destruct st. unfold emit_all. simpl. by rewrite app_nil_r. Qed.

Lemma emit_all_app es1 es2 st :
  emit_all es2 (emit_all es1 st) = emit_all (es1 ++ es2) st.
Proof. unfold emit_all. simpl. by rewrite app_assoc. Qed.

Lemma run_bind {A B} (m : M A) (k : A → M B) st :
  (m ≫= k) st
  = match m st with
    | (Normal a, st') => k a st'
    | (Throw e, st') => (Throw e, st')
    | (Timeout, st') => (Timeout, st')
    end.
Proof. reflexivity. Qed.

Lemma run_deref c st : deref c st = (Normal (the_ws st c), st).
Proof. reflexivity. Qed.

Lemma run_emit e st : emit e st = (Normal tt, emit_all [e] st).
Proof. reflexivity. Qed.

Lemma the_ws_emit_all es st c : the_ws (emit_all es st) c = the_ws st c.
Proof. reflexivity. Qed.

Lemma run_send c msg st :
  send c msg st
  = if send_throws (the_ws st c) then (Throw (SendError c), st)
    else (Normal tt, emit_all [Sent c msg] st).
Proof.
  unfold send. rewrite run_bind, run_deref.
  by destruct (send_throws (the_ws st c)).
Qed.

Lemma broadcast_loop msg snapshot st es :
  for_of snapshot (fun client =>
    w ← deref client;
    if decide (readyState w = OPEN) then send client msg else ret tt)
    (emit_all es st)
  = (outcome_of (abandoned_at st snapshot),
     emit_all (es ++ frames msg (delivered st snapshot)) st).
Proof.
  revert es. induction snapshot as [|c l IH]; intros es; simpl.
  - by rewrite app_nil_r.
  - rewrite !run_bind, run_deref, the_ws_emit_all.
    unfold send_fails, is_open.
    destruct (decide (readyState (the_ws st c) = OPEN)) as [Ho|Hn].
    + rewrite bool_decide_eq_true_2 by done. simpl.
      rewrite run_send, the_ws_emit_all.
      destruct (send_throws (the_ws st c)); simpl.
      * by rewrite app_nil_r.
      * rewrite emit_all_app, IH. by rewrite <- app_assoc.
    + rewrite bool_decide_eq_false_2 by done. simpl. apply IH.
Qed.

Lemma broadcast_run msg st :
  broadcast msg st
  = (outcome_of (abandoned_at st (wsClients st)),
     emit_all (frames msg (delivered st (wsClients st))) st).
Proof.
  unfold broadcast. rewrite run_bind. unfold Array_from_wsClients.
  rewrite <- (emit_all_nil st) at 2.
  by rewrite broadcast_loop.
Qed.

Lemma delivered_no_failure st l :
  (∀ c, c ∈ l → send_fails st c = false) →
  delivered st l = filter (fun c => is_open st c = true) l
  ∧ abandoned_at st l = None.
Proof.
  induction l as [|c l IH]; intros H; [done|]. simpl.
  rewrite (H c) by constructor.
  destruct IH as [IH1 IH2]; [intros; apply H; by constructor|].
  rewrite IH2. split; [|done].
  rewrite filter_cons. destruct (is_open st c); simpl.
  - by rewrite IH1.
  - done.
Qed.

Lemma delivered_failure st pre c post :
  (∀ x, x ∈ pre → send_fails st x = false) →
  send_fails st c = true →
  delivered st (pre ++ c :: post) = filter (fun x => is_open st x = true) pre
  ∧ abandoned_at st (pre ++ c :: post) = Some c.
Proof.
  induction pre as [|x pre IH]; intros H Hc; simpl.
  - by rewrite Hc.
  - rewrite (H x) by constructor.
    destruct IH as [IH1 IH2]; [intros; apply H; by constructor|done|].
    rewrite IH2. split; [|done].
    rewrite filter_cons. destruct (is_open st x); simpl.
    + by rewrite IH1.
    + done.
Qed.

(** ** The retry loop *)

Lemma run_try_catch {A} (m : M A) (h : exn → M A) st :
  try_catch m h st
  = match m st with
    | (Throw e, st') => h e st'
    | r => r
    end.
Proof. reflexivity. Qed.

Lemma sleeps_app a b : sleeps (a ++ b) = sleeps a ++ sleeps b.
Proof. apply omap_app. Qed.

Lemma attempts_app a b : attempts (a ++ b) = attempts a ++ attempts b.
Proof. apply omap_app. Qed.

Lemma sleeps_logs l : Forall is_log l → sleeps l = [].
Proof.
  induction 1 as [|e l He _ IH]; [done|].
  by destruct e.
Qed.

Lemma attempts_logs l : Forall is_log l → attempts l = [].
Proof.
  induction 1 as [|e l He _ IH]; [done|].
  by destruct e.
Qed.

Lemma phase_logs l : Forall is_log l → Forall connect_phase l.
Proof.
  intros H. eapply Forall_impl; [exact H|]. intros e He.
  destruct e as [| | | | | | | | | | | |[]]; done.
Qed.

Lemma run_accept w st :
  ∃ st' logs, accept w st = (Normal tt, st')
    ∧ extends st st' logs ∧ Forall is_log logs
    ∧ channel_open st' = channel_open st.
Proof.
  unfold accept. rewrite run_bind. simpl.
  destruct (listening st) eqn:Hl.
  - eexists _, [_]. split; [reflexivity|]. simpl.
    repeat split; auto. by constructor.
  - exists st, []. unfold extends. rewrite app_nil_r. by repeat split.
Qed.

Lemma run_accepts l st :
  ∃ st' logs, for_of l accept st = (Normal tt, st')
    ∧ extends st st' logs ∧ Forall is_log logs
    ∧ channel_open st' = channel_open st.
Proof.
  revert st. induction l as [|w l IH]; intros st; simpl.
  - exists st, []. unfold extends. rewrite app_nil_r. by repeat split.
  - rewrite run_bind.
    destruct (run_accept w st) as (st1 & l1 & -> & [Ht1 Hl1] & Hf1 & Hc1).
    destruct (IH st1) as (st2 & l2 & -> & [Ht2 Hl2] & Hf2 & Hc2).
    exists st2, (l1 ++ l2). split; [done|]. repeat split.
    + by rewrite Ht2, Ht1, app_assoc.
    + congruence.
    + by apply Forall_app.
    + congruence.
Qed.

Lemma connect_loop_retry fuel a d st :
  amqp_connect (a + 1) = false →
  a + 1 < MAX_RETRIES →
  ∃ st1 new,
    connect_loop (S fuel) a d st
    = connect_loop fuel (a + 1) (Z.min (d * 2) 30000) st1
    ∧ extends st st1 new
    ∧ sleeps new = [d + jitter_of (a + 1)]
    ∧ attempts new = [a + 1]
    ∧ channel_open st1 = channel_open st
    ∧ Forall connect_phase new.
Proof.
  intros Hfail Hlast. simpl.
  rewrite run_bind, run_try_catch, !run_bind. simpl.
  rewrite !run_bind. simpl. rewrite !run_bind.
  match goal with |- context [for_of _ accept ?s] =>
    destruct (run_accepts (arrivals (a + 1)) s) as (st1 & logs & -> & [Ht Hl] & Hlogs & Hc)
  end.
  rewrite Hfail. simpl.

  rewrite bool_decide_eq_false_2 by lia.
  rewrite !run_bind. simpl.
  eexists _, _. split; [reflexivity|].
  unfold extends. simpl in *. rewrite Ht, Hl, Hc.
  repeat split.
  - rewrite <- !app_assoc. reflexivity.
  - rewrite !sleeps_app, (sleeps_logs logs Hlogs). reflexivity.
  - rewrite !attempts_app, (attempts_logs logs Hlogs). reflexivity.
  - repeat (apply Forall_app; split); auto using phase_logs;
      repeat constructor.
Qed.

Lemma connect_loop_last fuel a d st :
  amqp_connect (a + 1) = false →
  MAX_RETRIES ≤ a + 1 →
  ∃ st1 new,
    connect_loop (S fuel) a d st = (Throw (ConnectError (a + 1)), st1)
    ∧ extends st st1 new
    ∧ sleeps new = []
    ∧ attempts new = [a + 1]
    ∧ channel_open st1 = channel_open st
    ∧ Forall connect_phase new.
Proof.
  intros Hfail Hlast. simpl.
  rewrite run_bind, run_try_catch, !run_bind. simpl.
  rewrite !run_bind. simpl. rewrite !run_bind.
  match goal with |- context [for_of _ accept ?s] =>
    destruct (run_accepts (arrivals (a + 1)) s)
      as (st1 & logs & -> & [Ht Hl] & Hlogs & Hc)
  end.
  rewrite Hfail. simpl.
  rewrite bool_decide_eq_true_2 by lia.
  rewrite !run_bind. simpl.
  eexists _, _. split; [reflexivity|].
  unfold extends. simpl in *. rewrite Ht, Hl, Hc.
  repeat split.
  - rewrite <- !app_assoc. reflexivity.
  - rewrite !sleeps_app, (sleeps_logs logs Hlogs). reflexivity.
  - rewrite !attempts_app, (attempts_logs logs Hlogs). reflexivity.
  - repeat (apply Forall_app; split); auto using phase_logs;
      repeat constructor.
Qed.

Lemma connect_loop_success fuel a d st :
  amqp_connect (a + 1) = true →
  ∃ st1 new,
    connect_loop (S fuel) a d st = (Normal tt, st1)
    ∧ extends st st1 new
    ∧ sleeps new = []
    ∧ attempts new = [a + 1]
    ∧ channel_open st1 = true
    ∧ Forall connect_phase new
    ∧ ∃ new', new = new' ++ [Log LogConnected].
Proof.
  intros Hok. simpl.
  rewrite run_bind, run_try_catch, !run_bind. simpl.
  rewrite !run_bind. simpl. rewrite !run_bind.
  match goal with |- context [for_of _ accept ?s] =>
    destruct (run_accepts (arrivals (a + 1)) s)
      as (st1 & logs & -> & [Ht Hl] & Hlogs & Hc)
  end.
  rewrite Hok. simpl.
  eexists _, _. split; [reflexivity|].
  unfold extends. simpl in *. rewrite Ht, Hl.
  repeat split.
  - rewrite <- !app_assoc. reflexivity.
  - rewrite !sleeps_app, (sleeps_logs logs Hlogs). reflexivity.
  - rewrite !attempts_app, (attempts_logs logs Hlogs). reflexivity.
  - repeat (apply Forall_app; split); auto using phase_logs;
      repeat constructor.
  - eexists. rewrite !app_assoc. reflexivity.
Qed.

(** [k] failed attempts, none of them the last, leave the loop where it
    would be had it started [k] attempts later. *)
Lemma connect_loop_unroll k : ∀ fuel a d st,
  (∀ i, a < i ≤ a + Z.of_nat k → amqp_connect i = false) →
  (k = 0%nat ∨ a + Z.of_nat k < MAX_RETRIES) →
  ∃ st1 new,
    connect_loop (k + fuel) a d st
    = connect_loop fuel (a + Z.of_nat k) (delay_after k d) st1
    ∧ extends st st1 new
    ∧ sleeps new = waits k a d
    ∧ attempts new = attempts_from k a
    ∧ channel_open st1 = channel_open st.
Proof.
  induction k as [|k IH]; intros fuel a d st Hfail Hlast.
  - exists st, []. unfold extends. rewrite app_nil_r, Z.add_0_r. by repeat split.
  - destruct (connect_loop_retry (k + fuel) a d st)
      as (st1 & n1 & E1 & [Ht1 Hl1] & Hs1 & Ha1 & Hc1 & _);
      [apply Hfail; lia | lia |].
    destruct (IH fuel (a + 1) (Z.min (d * 2) 30000) st1)
      as (st2 & n2 & E2 & [Ht2 Hl2] & Hs2 & Ha2 & Hc2);
      [intros i Hi; apply Hfail; lia | lia |].
    exists st2, (n1 ++ n2). repeat split.
    + change (S k + fuel)%nat with (S (k + fuel)).
      rewrite E1, E2. f_equal. lia.
    + by rewrite Ht2, Ht1, app_assoc.
    + congruence.
    + rewrite sleeps_app, Hs1, Hs2. reflexivity.
    + rewrite attempts_app, Ha1, Ha2. reflexivity.
    + congruence.
Qed.

Lemma connect_loop_extends fuel : ∀ a d st,
  ∃ new, extends st (connect_loop fuel a d st).2 new.
Proof.
  induction fuel as [|fuel IH]; intros a d st.
  - exists []. unfold extends. simpl. by rewrite app_nil_r.
  - destruct (amqp_connect (a + 1)) eqn:Hc.
    + destruct (connect_loop_success fuel a d st Hc) as (st1 & n & -> & H & _).
      by exists n.
    + destruct (decide (a + 1 < MAX_RETRIES)) as [Hlt|Hge].
      * destruct (connect_loop_retry fuel a d st Hc Hlt)
          as (st1 & n & -> & [Ht Hl] & _).
        destruct (IH (a + 1) (Z.min (d * 2) 30000) st1) as (n' & [Ht' Hl']).
        exists (n ++ n'). split.
        -- by rewrite Ht', Ht, app_assoc.
        -- congruence.
      * destruct (connect_loop_last fuel a d st Hc) as (st1 & n & -> & H & _);
          [lia|]. by exists n.
Qed.

Lemma delay_after_closed k d :
  delay_after (S k) d = Z.min (d * 2 ^ Z.of_nat (S k)) 30000.
Proof.
  revert d. induction k as [|k IH]; intros d.
  - reflexivity.
  - change (delay_after (S (S k)) d)
      with (delay_after (S k) (Z.min (d * 2) 30000)).
    rewrite IH.
    replace (2 ^ Z.of_nat (S (S k))) with (2 * 2 ^ Z.of_nat (S k))
      by (rewrite (Nat2Z.inj_succ (S k)), Z.pow_succ_r; lia).
    assert (1 ≤ 2 ^ Z.of_nat (S k)) by (apply Z.pow_le_mono_r with (b := 0); lia).
    nia.
Qed.

Lemma waits_length k : ∀ a d, length (waits k a d) = k.
Proof. induction k as [|k IH]; intros a d; simpl; [done|]. by rewrite IH. Qed.

Lemma waits_lookup k : ∀ a d n,
  (n < k)%nat →
  waits k a d !! n = Some (delay_after n d + jitter_of (a + Z.of_nat n + 1)).
Proof.
  induction k as [|k IH]; intros a d n Hn; [lia|].
  destruct n as [|n]; simpl.
  - do 3 f_equal. lia.
  - rewrite IH by lia. do 3 f_equal. lia.
Qed.

Lemma attempts_from_seqZ k : ∀ a, attempts_from k a = seqZ (a + 1) (Z.of_nat k).
Proof.
  induction k as [|k IH]; intros a; [done|].
  rewrite seqZ_cons by lia. simpl. rewrite IH. do 2 f_equal; lia.
Qed.

Lemma jitter_range k : 0 ≤ jitter_of k < 300.
Proof.
  unfold jitter_of.
  assert (0 ≤ Math_random k mod 2 ^ 53 < 2 ^ 53) as H
    by (apply Z.mod_pos_bound; lia).
  split.
  - apply Z.div_pos; lia.
  - apply Z.div_lt_upper_bound; lia.
Qed.

(** ** The two callers of [broadcast] *)

Lemma delivered_emit_all es st l :
  delivered (emit_all es st) l = delivered st l
  ∧ abandoned_at (emit_all es st) l = abandoned_at st l.
Proof.
  induction l as [|c l [IH1 IH2]]; [done|]. simpl.
  change (send_fails (emit_all es st) c) with (send_fails st c).
  change (is_open (emit_all es st) c) with (is_open st c).
  by rewrite IH1, IH2.
Qed.

Lemma run_console l st : console l st = (Normal tt, emit_all [Log l] st).
Proof. reflexivity. Qed.

Lemma run_parse_or_raw content st :
  try_catch (JSON_parse_M content) (fun e => ret (raw content)) st
  = (Normal (payload_of content), st).
Proof.
  unfold payload_of, JSON_parse_M. rewrite run_try_catch.
  by destruct (JSON_parse content).
Qed.

Lemma run_channel_ack msg st :
  channel_ack msg st
  = if channel_open st then (Normal tt, emit_all [Acked (deliveryTag msg)] st)
    else (Throw ChannelClosedError, st).
Proof. unfold channel_ack. rewrite run_bind. simpl. by destruct (channel_open st). Qed.

Lemma run_channel_nack msg a r st :
  channel_nack msg a r st
  = if channel_open st then (Normal tt, emit_all [Nacked (deliveryTag msg) a r] st)
    else (Throw ChannelClosedError, st).
Proof. unfold channel_nack. rewrite run_bind. simpl. by destruct (channel_open st). Qed.

Lemma consumer_run msg st :
  consumer (Some msg) st
  = (Normal tt,
     emit_all (Log LogQueueMessage
               :: frames (JSON_stringify (wrap (payload_of (content msg))))
                    (delivered st (wsClients st))
               ++ settle msg st) st).
Proof.
  unfold consumer, settle.
  rewrite run_try_catch, run_bind, run_parse_or_raw.
  generalize (JSON_stringify (wrap (payload_of (content msg)))). intros frame.
  rewrite run_bind, run_console, run_bind, broadcast_run.
  change (wsClients (emit_all [Log LogQueueMessage] st)) with (wsClients st).
  destruct (delivered_emit_all [Log LogQueueMessage] st (wsClients st)) as [-> ->].
  rewrite emit_all_app.
  destruct (abandoned_at st (wsClients st)) as [c|]; cbn [outcome_of].
  - rewrite run_bind, run_console, run_try_catch, run_channel_nack.
    change (channel_open (emit_all _ (emit_all _ st))) with (channel_open st).
    destruct (channel_open st).
    + rewrite !emit_all_app. do 2 f_equal; by rewrite <- ?app_assoc.
    + rewrite run_console, !emit_all_app. do 2 f_equal; by rewrite <- ?app_assoc.
  - rewrite run_channel_ack.
    change (channel_open (emit_all _ st)) with (channel_open st).
    destruct (channel_open st) eqn:Hc.
    + rewrite !emit_all_app. do 2 f_equal; by rewrite <- ?app_assoc.
    + rewrite run_bind, run_console, run_try_catch, run_channel_nack.
      change (channel_open (emit_all _ (emit_all _ st))) with (channel_open st).
      rewrite Hc, run_console, !emit_all_app. do 2 f_equal; by rewrite <- ?app_assoc.
Qed.

Lemma on_message_run message st :
  on_message message st
  = match JSON_parse message with
    | Some data =>
        (Normal tt,
         emit_all (frames (JSON_stringify data) (delivered st (wsClients st))
                   ++ match abandoned_at st (wsClients st) with
                      | None => []
                      | Some _ => [Log LogNotJSON]
                      end) st)
    | None => (Normal tt, emit_all [Log LogNotJSON] st)
    end.
Proof.
  unfold on_message, JSON_parse_M.
  rewrite run_try_catch, run_bind.
  destruct (JSON_parse message) as [data|]; simpl; [|reflexivity].
  rewrite broadcast_run.
  destruct (abandoned_at st (wsClients st)); cbn [outcome_of].
  - by rewrite run_console, emit_all_app.
  - by rewrite app_nil_r.
Qed.

Lemma run_heartbeat st :
  heartbeat st
  = match for_of_return (wsClients st) heartbeat_body st with
    | (Normal _, st') => (Normal tt, st')
    | (Throw e, st') => (Throw e, st')
    | (Timeout, st') => (Timeout, st')
    end.
Proof.
  unfold heartbeat. rewrite run_bind. unfold Array_from_wsClients.
  rewrite run_bind. by destruct (for_of_return _ _ _) as [[] ?].
Qed.

Lemma run_on_close c st :
  on_close c st
  = (Normal tt,
     emit_all [Log (LogClientDisconnected (length (Set_delete c (wsClients st))))]
              (set_wsClients (Set_delete c (wsClients st)) st)).
Proof. reflexivity. Qed.

(** ** Startup *)

Lemma accept_registers w st :
  registry_ok st →
  ∃ st', accept w st = (Normal tt, st')
    ∧ registry_ok st'
    ∧ trace st' = trace st ++ [Log (LogClientConnected (S (length (wsClients st))))]
    ∧ length (wsClients st') = S (length (wsClients st))
    ∧ channel_open st' = channel_open st.
Proof.
  intros [Hl Hreg]. unfold accept. rewrite run_bind. simpl. rewrite Hl.
  set (client := fresh (dom (heap st))).
  assert (client ∉ wsClients st) as Hfresh.
  { intros Hin. apply (is_fresh (dom (heap st))). by apply Hreg. }
  unfold on_connection. repeat (rewrite run_bind; cbn).
  unfold Set_add. rewrite decide_False by done.
  eexists. split; [reflexivity|]. simpl. repeat split.
  - done.
  - intros r Hr. cbn in Hr |- *. rewrite dom_alter_L, dom_insert_L.
    apply elem_of_app in Hr as [Hr|Hr].
    + apply elem_of_union_r. by apply Hreg.
    + apply elem_of_union_l. apply list_elem_of_singleton in Hr. set_solver.
  - rewrite length_app. simpl. do 4 f_equal. lia.
  - rewrite length_app. simpl. lia.
Qed.

Lemma accepts_register l : ∀ st,
  registry_ok st →
  ∃ st', for_of l accept st = (Normal tt, st')
    ∧ registry_ok st'
    ∧ trace st' = trace st ++ connected_logs (S (length (wsClients st))) (length l)
    ∧ length (wsClients st') = (length (wsClients st) + length l)%nat
    ∧ channel_open st' = channel_open st.
Proof.
  induction l as [|w l IH]; intros st Hok; simpl.
  - exists st. unfold connected_logs. simpl. rewrite app_nil_r.
    repeat split; try done; try apply Hok.
  - rewrite run_bind.
    destruct (accept_registers w st Hok) as (st1 & -> & Hok1 & Ht1 & Hn1 & Hc1).
    destruct (IH st1 Hok1) as (st2 & -> & Hok2 & Ht2 & Hn2 & Hc2).
    exists st2. split; [done|]. split; [done|]. repeat split.
    + rewrite Ht2, Ht1, Hn1, <- app_assoc. reflexivity.
    + lia.
    + congruence.
Qed.

Lemma connect_loop_phase fuel : ∀ a d st,
  ∃ new,
    extends st (connect_loop fuel a d st).2 new
    ∧ Forall connect_phase new
    ∧ ((connect_loop fuel a d st).1 = Normal tt →
       channel_open (connect_loop fuel a d st).2 = true
       ∧ ∃ new', new = new' ++ [Log LogConnected]).
Proof.
  induction fuel as [|fuel IH]; intros a d st.
  - exists []. unfold extends. simpl. rewrite app_nil_r. by repeat split.
  - destruct (amqp_connect (a + 1)) eqn:Hc.
    + destruct (connect_loop_success fuel a d st Hc)
        as (st1 & n & -> & H & _ & _ & Ho & Hp & Hn).
      exists n. split; [done|]. split; [done|]. intros _. by split.
    + destruct (decide (a + 1 < MAX_RETRIES)) as [Hlt|Hge].
      * destruct (connect_loop_retry fuel a d st Hc Hlt)
          as (st1 & n & -> & [Ht Hl] & _ & _ & _ & Hp).
        destruct (IH (a + 1) (Z.min (d * 2) 30000) st1)
          as (n' & [Ht' Hl'] & Hp' & Hn').
        exists (n ++ n'). split; [split|split].
        -- by rewrite Ht', Ht, app_assoc.
        -- congruence.
        -- by apply Forall_app.
        -- intros H. destruct (Hn' H) as [Ho [m ->]]. split; [done|].
           exists (n ++ m). by rewrite app_assoc.
      * destruct (connect_loop_last fuel a d st Hc)
          as (st1 & n & -> & H & _ & _ & _ & Hp); [lia|].
        exists n. split; [done|]. split; [done|]. intros [=].
Qed.

Lemma consumeQueue_run st :
  channel_open st = true →
  consumeQueue st
  = (Normal tt, emit_all [AssertQueue true; Log LogConsuming; Consume false] st).
Proof.
  intros Ho. unfold consumeQueue.
  rewrite run_bind. cbn. rewrite Ho.
  rewrite run_bind, run_emit, run_bind, run_console, run_bind. cbn.
  rewrite Ho, run_emit, !emit_all_app. reflexivity.
Qed.

(** [start] after [connectToRabbit]: the three ways it can go on. *)
Lemma start_run fuel st :
  start fuel st
  = match (connectToRabbit fuel st).1 with
    | Normal _ =>
        (Normal tt,
         emit_all [AssertQueue true; Log LogConsuming; Consume false;
                   SetInterval 30000; Log LogListening; OnSIGINT]
                  (connectToRabbit fuel st).2)
    | Throw _ =>
        (Normal tt,
         emit_all [Log LogStartFailed; Exit 1] (connectToRabbit fuel st).2)
    | Timeout => (Timeout, (connectToRabbit fuel st).2)
    end.
Proof.
  unfold start. rewrite run_try_catch, run_bind.
  destruct (connect_loop_phase fuel 0 INITIAL_DELAY_MS st) as (n & _ & _ & Hn).
  fold (connectToRabbit fuel) in Hn.
  destruct (connectToRabbit fuel st) as [[[]|e|] st1]; simpl in *.
  - destruct (Hn eq_refl) as [Ho _].
    rewrite run_bind, consumeQueue_run by done.
    repeat (rewrite run_bind; cbn). by rewrite !emit_all_app.
  - rewrite run_bind, run_console, run_emit, emit_all_app. reflexivity.
  - reflexivity.
Qed.

Lemma connect_loop_first fuel a d st :
  registry_ok st →
  ∃ rest,
    trace (connect_loop (S fuel) a d st).2
    = trace st
      ++ [Log (LogConnecting (a + 1)); Connect (a + 1)]
      ++ connected_logs (S (length (wsClients st))) (length (arrivals (a + 1)))
      ++ rest.
Proof.
  intros Hok. simpl.
  rewrite run_bind, run_try_catch, !run_bind. simpl.
  rewrite !run_bind. simpl. rewrite !run_bind.
  match goal with |- context [for_of _ accept ?s] =>
    destruct (accepts_register (arrivals (a + 1)) s)
      as (st1 & -> & _ & Ht & _ & _); [exact Hok|]
  end.
  simpl in Ht.
  destruct (amqp_connect (a + 1)); simpl.
  - eexists [_]. rewrite Ht, <- !app_assoc. reflexivity.
  - destruct (bool_decide (MAX_RETRIES ≤ a + 1)); rewrite !run_bind; simpl.
    + eexists [_; _]. rewrite Ht, <- !app_assoc. reflexivity.
    + match goal with |- context [connect_loop fuel ?a' ?d' ?s] =>
        destruct (connect_loop_phase fuel a' d' s) as (n & [Hn _] & _)
      end.
      eexists (_ :: _ :: _ :: n). rewrite Hn. simpl.
      rewrite Ht, <- !app_assoc. reflexivity.
Qed.

Lemma phase_not_listening l :
  Forall connect_phase l → Log LogListening ∉ l.
Proof.
  intros H Hin. rewrite Forall_forall in H. exact (H _ Hin).
Qed.

(** ** [JSON.stringify] produces JSON texts *)

Lemma json_rect' (P : json → Prop) :
  P JNull →
  (∀ b, P (JBool b)) →
  (∀ n, P (JNumber n)) →
  (∀ s, P (JString s)) →
  (∀ items, Forall P items → P (JArray items)) →
  (∀ fields, Forall (fun kv => P kv.2) fields → P (JObject fields)) →
  ∀ v, P v.
Proof.
  intros Hnull Hbool Hnum Hstr Harr Hobj.
  fix IH 1. intros [| b | n | s | items | fields].
  - exact Hnull.
  - apply Hbool.
  - apply Hnum.
  - apply Hstr.
  - apply Harr. induction items as [|x l IHl]; constructor; [apply IH | exact IHl].
  - apply Hobj. induction fields as [|[k x] l IHl]; constructor;
      [apply IH | exact IHl].
Qed.

Lemma digit_char_code d : (d < 10)%N → N_of_ascii (digit_char d) = (48 + d)%N.
Proof. intros H. unfold digit_char. apply N_ascii_embedding. lia. Qed.

Lemma N_digits_shape fuel : ∀ n acc,
  all_digits acc →
  (0 < n < 10 ^ N.of_nat (S fuel))%N →
  ∃ c ds, N_digits fuel n acc = String c ds ∧ is_digit19 c ∧ all_digits ds.
Proof.
  induction fuel as [|fuel IH]; intros n acc Hacc Hn.
  - exists (digit_char (n mod 10)), acc.
    change (10 ^ N.of_nat 1)%N with 10%N in Hn.
    split; [reflexivity|]. split; [|done].
    unfold is_digit19. rewrite N.mod_small, digit_char_code by lia. lia.
  - simpl N_digits.
    assert (n mod 10 < 10)%N as Hd by (apply N.mod_lt; lia).
    destruct (n / 10 =? 0)%N eqn:Hq.
    + apply N.eqb_eq in Hq.
      assert (n < 10)%N by (apply N.div_small_iff; [lia | exact Hq]).
      exists (digit_char (n mod 10)), acc.
      split; [reflexivity|]. split; [|done].
      unfold is_digit19. rewrite N.mod_small, digit_char_code by lia. lia.
    + apply N.eqb_neq in Hq. apply IH.
      * split; [|done]. unfold is_digit. rewrite digit_char_code by lia.
        revert Hd. generalize (n mod 10)%N. intros m Hm. lia.
      * split; [by apply N.neq_0_lt_0|]. apply N.Div0.div_lt_upper_bound.
        rewrite (Nat2N.inj_succ (S fuel)), N.pow_succ_r' in Hn. apply Hn.
Qed.

Lemma N_to_string_number p :
  ∃ c ds, N_to_string (Npos p) = String c ds ∧ is_digit19 c ∧ all_digits ds.
Proof.
  apply N_digits_shape; [done|]. split; [lia|].
  destruct (N.log2_spec (Npos p)) as [_ Hlt]; [lia|].
  eapply N.lt_le_trans; [exact Hlt|].
  rewrite Nat2N.inj_succ, N2Nat.id.
  apply N.pow_le_mono_l. lia.
Qed.

Lemma append_empty s : s +:+ "" = s.
Proof.
  induction s as [|c s IH]; [done|].
  change (String c (s +:+ "") = String c s). by rewrite IH.
Qed.

Lemma digit19_digit c : is_digit19 c → is_digit c.
Proof. unfold is_digit19, is_digit. lia. Qed.

Lemma all_digits_app a b : all_digits a → all_digits b → all_digits (a +:+ b).
Proof.
  induction a as [|c a IH]; simpl; [done|]. intros [Hc Ha] Hb. split; [done|].
  by apply IH.
Qed.

Lemma zero_digit : is_digit "0".
Proof. unfold is_digit. simpl. lia. Qed.

Lemma all_digits_zeros n : all_digits (zeros n).
Proof. induction n as [|n IH]; simpl; [done|]. split; [apply zero_digit|done]. Qed.

Lemma all_digits_first n : ∀ s, all_digits s → all_digits (first_chars n s).
Proof.
  induction n as [|n IH]; intros [|c s]; simpl; try done.
  intros [Hc Hs]. split; [done|]. by apply IH.
Qed.

Lemma skip_chars_digits n : ∀ s,
  (n < String.length s)%nat → all_digits s →
  ∃ c r, skip_chars n s = String c r ∧ is_digit c ∧ all_digits r.
Proof.
  induction n as [|n IH]; intros [|c s]; simpl; try lia.
  - intros _ [Hc Hs]. by exists c, s.
  - intros Hn [Hc Hs]. apply IH; [lia|done].
Qed.

Lemma N_to_string_digits s :
  (0 < s)%N →
  ∃ c ds, N_to_string s = String c ds ∧ is_digit19 c ∧ all_digits ds.
Proof.
  destruct s as [|p]; [lia|]. intros _. apply N_to_string_number.
Qed.

(** The three parts of a number after its sign. *)
Lemma number_unsigned minus i f e :
  minus = ""%string ∨ minus = "-"%string →
  json_int i → json_frac f → json_exp e →
  json_number (minus +:+ (i +:+ f +:+ e)).
Proof. apply number_parts. Qed.

Lemma positive_toString_parts s e :
  (0 < s)%N →
  ∃ i f x,
    positive_toString s e = i +:+ f +:+ x
    ∧ json_int i ∧ json_frac f ∧ json_exp x.
Proof.
  intros Hs. unfold positive_toString.
  destruct (N_to_string_digits s Hs) as (c & ds & -> & Hc & Hds).
  cbn [String.length].
  set (k := Z.of_nat (S (String.length ds))).
  assert (1 ≤ k) as Hk by (unfold k; lia).
  set (n := e + k).
  destruct ((k <=? n) && (n <=? 21)) eqn:HA.
  { exists (String c (ds +:+ zeros (Z.to_nat (n - k)))), ""%string, ""%string.
    split; [simpl; by rewrite append_empty|].
    split; [|split; constructor].
    constructor; [done|]. apply all_digits_app; [done|apply all_digits_zeros]. }
  destruct ((0 <? n) && (n <=? 21)) eqn:HB.
  { apply andb_prop in HB as [Hn0 Hn21].
    apply Z.ltb_lt in Hn0. apply Z.leb_le in Hn21.
    assert (n < k) as Hnk.
    { destruct (Z.leb_spec k n) as [Hle|Hlt]; [|done].
      apply (proj2 (Z.leb_le n 21)) in Hn21. rewrite Hn21 in HA. done. }
    destruct (Z.to_nat n) as [|n'] eqn:Hn'; [lia|].
    destruct (skip_chars_digits n' ds) as (c' & r & Hr & Hc' & Hr');
      [unfold k in Hnk; lia | done |].
    exists (String c (first_chars n' ds)), (String "." (String c' r)), ""%string.
    split; [simpl; rewrite Hr; by rewrite append_empty|].
    split; [|split; by constructor].
    constructor; [done|]. by apply all_digits_first. }
  destruct ((-6 <? n) && (n <=? 0)) eqn:HC.
  { assert (∃ c' r, zeros (Z.to_nat (- n)) +:+ String c ds = String c' r
                    ∧ is_digit c' ∧ all_digits r) as (c' & r & Hr & Hc' & Hr').
    { destruct (Z.to_nat (- n)) as [|z]; simpl.
      - exists c, ds. split; [done|]. split; [by apply digit19_digit|done].
      - eexists _, _. split; [reflexivity|]. split; [apply zero_digit|].
        apply all_digits_app; [apply all_digits_zeros|].
        split; [by apply digit19_digit|done]. }
    exists "0"%string, (String "." (String c' r)), ""%string.
    split; [simpl; rewrite Hr; by rewrite append_empty|].
    split; [|split]; by constructor. }
  assert (n - 1 ≠ 0) as Hn1.
  { intros Hn. replace n with 1 in HB by lia. done. }
  destruct (N_to_string_digits (Z.abs_N (n - 1))) as (c' & r & He & Hc' & Hr');
    [lia|].
  rewrite He.
  assert (json_exp (String "e" ((if n - 1 <? 0 then "-" else "+")
                                 +:+ String c' r))) as Hexp.
  { apply exp_digits; [by left | | by apply digit19_digit | done].
    destruct (n - 1 <? 0); auto. }
  destruct (k =? 1) eqn:Hk1.
  - apply Z.eqb_eq in Hk1.
    destruct ds as [|d ds]; [|unfold k in Hk1; simpl in Hk1; lia].
    eexists (String c ""), ""%string, _.
    split; [reflexivity|]. split; [by constructor|]. split; [constructor|done].
  - apply Z.eqb_neq in Hk1.
    destruct ds as [|d ds]; [unfold k in Hk1; simpl in Hk1; lia|].
    destruct Hds as [Hd Hds].
    eexists (String c ""), (String "." (String d ds)), _.
    split; [reflexivity|]. split; [by constructor|]. split; [by constructor|done].
Qed.

Lemma strip_zeros_positive fuel : ∀ m e,
  (0 < m)%N → (0 < (strip_zeros fuel m e).1)%N.
Proof.
  induction fuel as [|fuel IH]; intros m e Hm; simpl; [done|].
  destruct (m mod 10 =? 0)%N eqn:Hmod; [|done].
  apply IH. apply N.eqb_eq in Hmod.
  pose proof (N.Div0.div_mod m 10) as Hdiv. rewrite Hmod in Hdiv.
  revert Hdiv. generalize (m / 10)%N. intros q Hq. lia.
Qed.

Lemma Number_toString_number negative m e :
  json_number (Number_toString (Decimal negative m e)).
Proof.
  unfold Number_toString.
  destruct (m =? 0)%N eqn:Hm.
  - apply (number_parts "" "0" "" ""); [by left|constructor..].
  - apply N.eqb_neq in Hm.
    pose proof (strip_zeros_positive (N.to_nat (N.log2 m)) m e) as Hs.
    unfold shortest. destruct (strip_zeros _ m e) as [s e'].
    destruct (positive_toString_parts s e') as (i & f & x & -> & Hi & Hf & Hx);
      [apply Hs; lia|].
    apply number_unsigned; [|done..].
    destruct negative; auto.
Qed.

Lemma hex_char_hex d : (d < 16)%N → is_hex (hex_char d).
Proof.
  intros H. unfold hex_char, is_hex.
  destruct (d <? 10)%N eqn:Hd.
  - apply N.ltb_lt in Hd. left. rewrite N_ascii_embedding by lia. lia.
  - apply N.ltb_ge in Hd. right. right. rewrite N_ascii_embedding by lia. lia.
Qed.

Lemma escape_known (code : N) :
  code ∈ [34; 92; 47; 98; 102; 110; 114; 116]%N →
  is_escape (ascii_of_N code).
Proof.
  intros H. unfold is_escape.
  rewrite N_ascii_embedding; [exact H|].
  apply list_elem_of_In in H. simpl in H.
  repeat (destruct H as [<-|H]; [reflexivity|]). done.
Qed.

Lemma escape_char_chars c rest :
  json_chars rest → json_chars (escape_char c +:+ rest).
Proof.
  intros Hrest. unfold escape_char.
  assert (N_of_ascii c < 256)%N as Hc by apply N_ascii_bounded.
  destruct (N_of_ascii c =? 34)%N eqn:H34;
    [apply (chars_escape (ascii_of_N 34)); [apply escape_known; set_solver|done]|].
  destruct (N_of_ascii c =? 92)%N eqn:H92;
    [apply (chars_escape (ascii_of_N 92)); [apply escape_known; set_solver|done]|].
  destruct (N_of_ascii c =? 8)%N;
    [apply (chars_escape (ascii_of_N 98)); [apply escape_known; set_solver|done]|].
  destruct (N_of_ascii c =? 9)%N;
    [apply (chars_escape (ascii_of_N 116)); [apply escape_known; set_solver|done]|].
  destruct (N_of_ascii c =? 10)%N;
    [apply (chars_escape (ascii_of_N 110)); [apply escape_known; set_solver|done]|].
  destruct (N_of_ascii c =? 12)%N;
    [apply (chars_escape (ascii_of_N 102)); [apply escape_known; set_solver|done]|].
  destruct (N_of_ascii c =? 13)%N;
    [apply (chars_escape (ascii_of_N 114)); [apply escape_known; set_solver|done]|].
  apply N.eqb_neq in H34, H92.
  destruct (N_of_ascii c <? 32)%N eqn:H32.
  - apply N.ltb_lt in H32.
    apply (chars_unicode (ascii_of_N 48) (ascii_of_N 48)); try done.
    + left. rewrite N_ascii_embedding by lia. lia.
    + left. rewrite N_ascii_embedding by lia. lia.
    + apply hex_char_hex. apply N.Div0.div_lt_upper_bound. lia.
    + apply hex_char_hex. apply N.mod_lt. lia.
  - apply N.ltb_ge in H32. by apply chars_plain.
Qed.

Lemma escape_chars s : json_chars (escape s).
Proof.
  induction s as [|c s IH]; simpl.
  - constructor.
  - by apply escape_char_chars.
Qed.

Lemma join_elements (texts : list string) :
  Forall json_text texts → json_elements (join texts).
Proof.
  intros H. destruct H as [|x l Hx Hl]; [constructor|].
  apply elements_some. revert x Hx.
  induction Hl as [|y l Hy Hl IH]; intros x Hx.
  - by apply elements_one.
  - apply (elements_more x (join (y :: l))); [done|]. by apply IH.
Qed.

Lemma join_members (fields : list (string * json)) :
  Forall (fun kv => json_text (JSON_stringify kv.2)) fields →
  json_members
    (join (map (fun '(k, x) => quote k +:+ ":" +:+ JSON_stringify x) fields)).
Proof.
  intros H.
  assert (∀ k x, json_text (JSON_stringify x) →
                 json_member (quote k +:+ ":" +:+ JSON_stringify x)) as Hm.
  { intros k x Hx. apply (member_pair (escape k)); [apply escape_chars|done]. }
  destruct H as [|[k x] l Hx Hl]; [constructor|].
  apply members_some. revert k x Hx.
  induction Hl as [|[k' y] l Hy Hl IH]; intros k x Hx.
  - apply members_one. by apply Hm.
  - apply (members_more (quote k +:+ ":" +:+ JSON_stringify x)
             (join (map (fun '(k, x) => quote k +:+ ":" +:+ JSON_stringify x)
                        ((k', y) :: l))));
      [by apply Hm | by apply IH].
Qed.

Lemma JSON_stringify_text v : json_text (JSON_stringify v).
Proof.
  induction v as [| b | n | s | items IH | fields IH] using json_rect'.
  - constructor.
  - destruct b; constructor.
  - destruct n as [negative m e|negative]; [|constructor].
    apply text_number, Number_toString_number.
  - apply (text_string (escape s)), escape_chars.
  - apply (text_array (join (map JSON_stringify items))), join_elements.
    by apply Forall_fmap.
  - apply (text_object _), join_members, IH.
Qed.

(** ** The heartbeat *)

Lemma the_ws_alter_ne f x y st :
  x ≠ y → the_ws (set_heap (alter f x (heap st)) st) y = the_ws st y.
Proof. intros H. unfold the_ws. simpl. by rewrite lookup_alter_ne. Qed.

Lemma heartbeat_body_dead c st :
  isAlive (the_ws st c) = false →
  ∃ st' new,
    heartbeat_body c st = (Normal true, st')
    ∧ trace st' = trace st ++ new
    ∧ Forall (probe_of [c]) new
    ∧ ∀ y, y ≠ c → the_ws st' y = the_ws st y.
Proof.
  intros Hdead. unfold heartbeat_body.
  rewrite run_bind, run_deref, Hdead. cbn [negb].
  unfold terminate. rewrite !run_bind, run_deref.
  destruct (decide (readyState (the_ws st c) = CLOSED)).
  - exists st, []. rewrite app_nil_r. by repeat split.
  - rewrite run_bind. cbn.
    eexists _, [Terminated c]. split; [reflexivity|]. repeat split.
    + repeat constructor. exists c. split; [by right | by left].
    + intros y Hy. by apply the_ws_alter_ne.
Qed.

Lemma heartbeat_body_alive x st :
  isAlive (the_ws st x) = true →
  ∃ st' new,
    heartbeat_body x st = (Normal false, st')
    ∧ trace st' = trace st ++ new
    ∧ Forall (probe_of [x]) new
    ∧ ∀ y, y ≠ x → the_ws st' y = the_ws st y.
Proof.
  intros Halive. unfold heartbeat_body.
  rewrite run_bind, run_deref, Halive. cbn [negb].
  rewrite run_bind.
  change (set_isAlive x false st) with
    (Normal tt, set_heap (alter (fun w => {| readyState := readyState w;
       isAlive := false; send_throws := send_throws w |}) x (heap st)) st).
  cbv beta iota. rewrite run_bind. unfold ping. rewrite run_bind, run_deref.
  match goal with |- context [decide ?P] => destruct (decide P) end.
  - rewrite run_emit.
    eexists _, [Pinged x]. split; [reflexivity|]. repeat split.
    + repeat constructor. exists x. split; [by left | by left].
    + intros y Hy. by apply the_ws_alter_ne.
  - eexists _, []. split; [reflexivity|]. cbn. rewrite app_nil_r. repeat split.
    + constructor.
    + intros y Hy. by apply the_ws_alter_ne.
Qed.

Lemma probe_of_mono l1 l2 new :
  (∀ y, y ∈ l1 → y ∈ l2) → Forall (probe_of l1) new → Forall (probe_of l2) new.
Proof.
  intros Hsub H. eapply Forall_impl; [exact H|].
  intros e (y & He & Hy). exists y. auto.
Qed.

(** The loop stops at the first client whose flag is false: the clients
    after it in the snapshot are not visited. *)
Lemma heartbeat_loop c post : ∀ pre st,
  NoDup (pre ++ [c]) →
  (∀ x, x ∈ pre → isAlive (the_ws st x) = true) →
  isAlive (the_ws st c) = false →
  ∃ st' new,
    for_of_return (pre ++ c :: post) heartbeat_body st = (Normal true, st')
    ∧ trace st' = trace st ++ new
    ∧ Forall (probe_of (pre ++ [c])) new
    ∧ ∀ y, y ∉ pre ++ [c] → the_ws st' y = the_ws st y.
Proof.
  induction pre as [|x pre IH]; intros st Hnd Halive Hdead; simpl.
  - rewrite run_bind.
    destruct (heartbeat_body_dead c st Hdead) as (st' & new & -> & Ht & Hp & Hw).
    exists st', new. repeat split; try done.
    intros y Hy. apply Hw. set_solver.
  - rewrite run_bind.
    apply NoDup_cons in Hnd as [Hx Hnd].
    destruct (heartbeat_body_alive x st) as (st1 & n1 & -> & Ht1 & Hp1 & Hw1);
      [apply Halive; by left|].
    destruct (IH st1 Hnd) as (st2 & n2 & -> & Ht2 & Hp2 & Hw2).
    { intros y Hy. rewrite Hw1; [apply Halive; by right|]. set_solver. }
    { rewrite Hw1; [done|]. set_solver. }
    exists st2, (n1 ++ n2). repeat split.
    + by rewrite Ht2, Ht1, app_assoc.
    + apply Forall_app. split.
      * eapply probe_of_mono; [|exact Hp1].
        intros y Hy%list_elem_of_singleton. subst y. by left.
      * eapply probe_of_mono; [|exact Hp2]. intros y Hy. by right.
    + intros y Hy. apply not_elem_of_cons in Hy as [Hyx Hy].
      rewrite Hw2 by done. by apply Hw1.
Qed.

(** ** Broadcast: delivery and failures *)


(** C3, as amended.  [broadcast] leaves the registry and every socket
    as they were, whatever happens to the deliveries: it only adds
    frames to the trace. *)
Theorem broadcast_keeps_registry (msg : string) (st : relay) :
  wsClients (broadcast msg st).2 = wsClients st
  ∧ heap (broadcast msg st).2 = heap st
  ∧ ∃ sent, trace (broadcast msg st).2 = trace st ++ frames msg sent.
Proof.
  rewrite broadcast_run. simpl. eauto.
Qed.

(** ** Backoff and retry exhaustion *)

(** C4, as amended.  When the first [N] attempts fail and [N] is below
    the retry bound, the [N]-th wait of [connectToRabbit] is the initial
    delay plus jitter for [N = 1], and
    [min (initial * 2^(N-1)) 30000] plus jitter from the second wait on;
    the jitter is an integer in [0, 300).  The ceiling is applied when
    the delay is doubled, so the first wait is not capped. *)
Theorem backoff_wait (N fuel : nat) (st : relay) :
  (1 ≤ N)%nat →
  Z.of_nat N < MAX_RETRIES →
  (∀ i, 1 ≤ i ≤ Z.of_nat N → amqp_connect i = false) →
  (N ≤ fuel)%nat →
  ∃ new,
    trace (connectToRabbit fuel st).2 = trace st ++ new
    ∧ sleeps new !! (N - 1)%nat
      = Some ((if decide (N = 1%nat) then INITIAL_DELAY_MS
               else Z.min (INITIAL_DELAY_MS * 2 ^ (Z.of_nat N - 1)) 30000)
              + jitter_of (Z.of_nat N))
    ∧ 0 ≤ jitter_of (Z.of_nat N) < 300.
Proof.
  intros HN Hmax Hfail Hfuel.
  replace fuel with (N + (fuel - N))%nat by lia.
  unfold connectToRabbit.
  destruct (connect_loop_unroll N (fuel - N) 0 INITIAL_DELAY_MS st)
    as (st1 & n1 & -> & [Ht1 _] & Hs1 & _); [intros; apply Hfail; lia | lia |].
  destruct (connect_loop_extends (fuel - N) (0 + Z.of_nat N)
              (delay_after N INITIAL_DELAY_MS) st1) as (n2 & [Ht2 _]).
  exists (n1 ++ n2). split; [by rewrite Ht2, Ht1, app_assoc|].
  split; [|apply jitter_range].
  rewrite sleeps_app, Hs1, lookup_app_l by (rewrite waits_length; lia).
  rewrite waits_lookup by lia.
  replace (0 + Z.of_nat (N - 1) + 1) with (Z.of_nat N) by lia.
  do 2 f_equal.
  destruct (decide (N = 1%nat)) as [->|Hne]; [reflexivity|].
  replace (N - 1)%nat with (S (N - 2)) by lia.
  rewrite delay_after_closed. do 3 f_equal. lia.
Qed.

(** C5, as amended.  When every attempt fails, [connectToRabbit] makes
    attempts 1, 2, ..., [max 1 MAX_RETRIES] and no other, then raises the
    error of the last one to its caller: exactly [MAX_RETRIES] attempts
    when [MAX_RETRIES] is at least 1, and one attempt when it is not. *)
Theorem retry_exhaustion (fuel : nat) (st : relay) :
  (∀ i, 1 ≤ i → amqp_connect i = false) →
  Z.max 1 MAX_RETRIES ≤ Z.of_nat fuel →
  ∃ st' new,
    connectToRabbit fuel st = (Throw (ConnectError (Z.max 1 MAX_RETRIES)), st')
    ∧ trace st' = trace st ++ new
    ∧ attempts new = seqZ 1 (Z.max 1 MAX_RETRIES).
Proof.
  intros Hfail Hfuel.
  remember (Z.max 1 MAX_RETRIES) as n eqn:Hn.
  remember (Z.to_nat (n - 1)) as k eqn:Hk.
  replace fuel with (k + S (fuel - S k))%nat by lia.
  unfold connectToRabbit.
  destruct (connect_loop_unroll k (S (fuel - S k)) 0 INITIAL_DELAY_MS st)
    as (st1 & n1 & -> & [Ht1 _] & _ & Ha1 & _); [intros; apply Hfail; lia | lia |].
  destruct (connect_loop_last (fuel - S k) (0 + Z.of_nat k)
              (delay_after k INITIAL_DELAY_MS) st1)
    as (st2 & n2 & E2 & [Ht2 _] & _ & Ha2 & _); [apply Hfail; lia | lia |].
  exists st2, (n1 ++ n2). rewrite E2.
  replace (0 + Z.of_nat k + 1) with n in * by lia.
  repeat split.
  - by rewrite Ht2, Ht1, app_assoc.
  - rewrite attempts_app, Ha1, Ha2, attempts_from_seqZ.
    replace n with (Z.of_nat k + 1) at 2 by lia.
    rewrite seqZ_app by lia. f_equal.
    change (seqZ (1 + Z.of_nat k) 1) with [0 + (1 + Z.of_nat k)].
    f_equal. lia.
Qed.

(** ** The queue consumer and the message handler *)

Lemma new_effects_emit_all es st : new_effects st (emit_all es st) = es.
Proof. unfold new_effects. simpl. by rewrite drop_app_length. Qed.

(** C6.  Take a delivery with content [c] that is handled while the
    channel is open and no send raises (as on the sockets and the
    channel the relay has).  The consumer broadcasts exactly the
    serialization of [{source: realtime, payload: p}], where [p] is the
    parse of [c] when [c] is JSON and [{raw: c}] when it is not; every
    open client gets it; and the delivery is acknowledged, after the
    broadcast, with no nack.  Content that is not JSON is wrapped and
    acknowledged like any other. *)
Theorem consumer_wraps_and_acks (msg : queue_msg) (st : relay) :
  let payload :=
    match JSON_parse (content msg) with
    | Some p => p
    | None => JObject [("raw"%string, JString (content msg))]
    end in
  let frame :=
    JSON_stringify
      (JObject [("source"%string, JString "realtime"); ("payload"%string, payload)]) in
  (∀ c, c ∈ wsClients st → send_fails st c = false) →
  channel_open st = true →
  consumer (Some msg) st
  = (Normal tt,
     emit_all (Log LogQueueMessage
               :: frames frame (filter (fun c => is_open st c = true) (wsClients st))
               ++ [Acked (deliveryTag msg)]) st).
Proof.
  intros payload frame Hsend Hopen. rewrite consumer_run. unfold settle.
  destruct (delivered_no_failure st (wsClients st) Hsend) as [-> ->].
  by rewrite Hopen.
Qed.

(** C8.  A delivery is handled while the channel is open: the relay
    opens the channel before it consumes and no handler closes it.  For
    every such delivery the consumer returns normally and issues exactly
    one of ack and nack, never both and never neither: the ack when
    processing went through, the nack, with requeue false, when the
    broadcast raised. *)
Theorem consumer_settles_once (msg : queue_msg) (st : relay) :
  channel_open st = true →
  ∃ new,
    consumer (Some msg) st = (Normal tt, emit_all new st)
    ∧ settlements new
      = [match (broadcast (JSON_stringify (wrap (payload_of (content msg)))) st).1 with
         | Normal _ => Acked (deliveryTag msg)
         | _ => Nacked (deliveryTag msg) false false
         end].
Proof.
  intros Hopen. eexists. split; [apply consumer_run|].
  rewrite broadcast_run. unfold settle, settlements.
  rewrite filter_cons, decide_False by done.
  rewrite filter_app.
  assert (∀ f l, filter (fun e => is_settlement e = true) (frames f l) = []) as ->.
  { intros f l. induction l as [|c l IH]; [done|]. simpl.
    rewrite filter_cons, decide_False by done. apply IH. }
  rewrite Hopen. by destruct (abandoned_at st (wsClients st)).
Qed.

(** C7, as amended.  No exception leaves the message handler.  A message
    that does not parse is logged and nothing is sent.  A message that
    parses to [data] is handed to [broadcast] as the serialization of
    [data], without wrapping and without leaving the sender out: when no
    send raises, exactly the open clients of the registry get it; when
    the send to an open client raises, the open clients before it have
    got it, the handler logs the exception and the others get nothing. *)
Theorem on_message_relays (message : string) (st : relay) :
  (on_message message st).1 = Normal tt
  ∧ (JSON_parse message = None →
     (on_message message st).2 = emit_all [Log LogNotJSON] st)
  ∧ (∀ data,
       JSON_parse message = Some data →
       (∀ c, c ∈ wsClients st → send_fails st c = false) →
       (on_message message st).2
       = emit_all (frames (JSON_stringify data)
                     (filter (fun c => is_open st c = true) (wsClients st))) st)
  ∧ (∀ data pre c post,
       JSON_parse message = Some data →
       wsClients st = pre ++ c :: post →
       (∀ x, x ∈ pre → send_fails st x = false) →
       send_fails st c = true →
       (on_message message st).2
       = emit_all (frames (JSON_stringify data)
                     (filter (fun x => is_open st x = true) pre)
                   ++ [Log LogNotJSON]) st).
Proof.
  rewrite on_message_run. repeat split.
  - by destruct (JSON_parse message).
  - by intros ->.
  - intros data -> Hsend.
    destruct (delivered_no_failure st (wsClients st) Hsend) as [-> ->].
    by rewrite app_nil_r.
  - intros data pre c post -> Hreg Hpre Hc. rewrite Hreg.
    by destruct (delivered_failure st pre c post Hpre Hc) as [-> ->].
Qed.

(** ** The startup sequence *)

(** C9, as amended.  The server is constructed when the module is
    loaded, before [start] runs: the clients that reach the port while
    the first connection attempt is awaited are accepted and registered
    before the queue connection exists.  The readiness line is logged
    once, and only after the queue connection is established, the queue
    is declared and consumed and the heartbeat timer is set, in that
    order. *)
Theorem startup_order (fuel : nat) :
  let st' := (main fuel boot).2 in
  (Log LogListening ∈ trace st' →
   ∃ before,
     trace st'
     = before ++ [Log LogConnected; AssertQueue true; Log LogConsuming;
                  Consume false; SetInterval 30000; Log LogListening; OnSIGINT]
     ∧ Log LogListening ∉ before)
  ∧ ((1 ≤ fuel)%nat →
     ∃ rest,
       trace st'
       = [Log (LogConnecting 1); Connect 1]
         ++ connected_logs 1 (length (arrivals 1)) ++ rest).
Proof.
  set (st0 := set_wsClients [] (set_listening true boot)).
  assert (main fuel boot = start fuel st0) as -> by reflexivity.
  split.
  - rewrite start_run. unfold connectToRabbit.
    destruct (connect_loop_phase fuel 0 INITIAL_DELAY_MS st0)
      as (n & [Ht _] & Hp & Hn).
    destruct (connect_loop fuel 0 INITIAL_DELAY_MS st0) as [[[]|e|] st1];
      simpl in *; intros Hin.
    + destruct (Hn eq_refl) as [_ [n' ->]]. exists n'. split.
      * rewrite Ht, <- app_assoc. reflexivity.
      * apply phase_not_listening. by apply Forall_app in Hp as [Hp _].
    + rewrite Ht in Hin. apply elem_of_app in Hin as [Hin|Hin].
      * by apply phase_not_listening in Hp.
      * apply list_elem_of_In in Hin. simpl in Hin.
        destruct Hin as [[=]|[[=]|[]]].
    + rewrite Ht in Hin. by apply phase_not_listening in Hp.
  - intros Hfuel. destruct fuel as [|fuel]; [lia|].
    rewrite start_run. unfold connectToRabbit.
    destruct (connect_loop_first fuel 0 INITIAL_DELAY_MS st0) as [rest Hr];
      [split; [reflexivity | intros r Hr; by apply elem_of_nil in Hr]|].
    change (trace st0) with (@nil effect) in Hr. rewrite app_nil_l in Hr.
    change (0 + 1) with 1 in Hr.
    destruct (connect_loop (S fuel) 0 INITIAL_DELAY_MS st0) as [[[]|e|] st1];
      cbn [fst snd trace emit_all] in *; rewrite Hr.
    + eexists. rewrite <- !app_assoc. reflexivity.
    + eexists. rewrite <- !app_assoc. reflexivity.
    + by exists rest.
Qed.

(** ** Frames are JSON texts *)

Lemma frames_json v clients : Forall json_frame (frames (JSON_stringify v) clients).
Proof.
  apply Forall_fmap, Forall_forall. intros c _. simpl.
  split; [by exists v | apply JSON_stringify_text].
Qed.

Lemma settle_json msg st : Forall json_frame (settle msg st).
Proof.
  unfold settle.
  destruct (abandoned_at st (wsClients st)), (channel_open st);
    repeat constructor.
Qed.

(** The heartbeat sends no frame: it pings and terminates. *)
Lemma heartbeat_loop_frames l : ∀ st,
  ∃ new,
    trace (for_of_return l heartbeat_body st).2 = trace st ++ new
    ∧ Forall json_frame new.
Proof.
  assert (∀ x new, Forall (probe_of [x]) new → Forall json_frame new) as Hprobe.
  { intros x new H. eapply Forall_impl; [exact H|].
    by intros e (y & [->| ->] & _). }
  induction l as [|x l IH]; intros st.
  - exists []. simpl. by rewrite app_nil_r.
  - simpl. rewrite run_bind.
    destruct (isAlive (the_ws st x)) eqn:Hx.
    + destruct (heartbeat_body_alive x st Hx) as (st1 & n1 & -> & Ht1 & Hp1 & _).
      destruct (IH st1) as (n2 & Ht2 & Hp2).
      exists (n1 ++ n2). split; [by rewrite Ht2, Ht1, app_assoc|].
      apply Forall_app. split; [by apply (Hprobe x)|done].
    + destruct (heartbeat_body_dead x st Hx) as (st1 & n1 & -> & Ht1 & Hp1 & _).
      exists n1. split; [done|]. by apply (Hprobe x).
Qed.

Lemma dispatch_frames e st :
  ∃ new,
    trace (dispatch e st).2 = trace st ++ new ∧ Forall json_frame new.
Proof.
  destruct e as [w|message|client|client|msg|]; cbn [dispatch].
  - unfold accept. rewrite run_bind. cbn [get].
    destruct (listening st).
    + unfold on_connection. repeat (rewrite run_bind; cbn).
      eexists [_]. split; [reflexivity|]. by repeat constructor.
    + exists []. simpl. by rewrite app_nil_r.
  - rewrite on_message_run.
    destruct (JSON_parse message) as [data|]; eexists; (split; [reflexivity|]).
    + apply Forall_app. split; [apply frames_json|].
      destruct (abandoned_at st (wsClients st)); by repeat constructor.
    + by repeat constructor.
  - exists []. simpl. by rewrite app_nil_r.
  - rewrite run_on_close. eexists [_]. split; [reflexivity|]. by repeat constructor.
  - destruct msg as [msg|].
    + rewrite consumer_run. eexists. split; [reflexivity|].
      constructor; [done|]. apply Forall_app. split; [apply frames_json|].
      apply settle_json.
    + exists []. simpl. by rewrite app_nil_r.
  - rewrite run_heartbeat.
    destruct (heartbeat_loop_frames (wsClients st) st) as (new & Ht & Hp).
    exists new. split; [|done].
    by destruct (for_of_return (wsClients st) heartbeat_body st) as [[b|e|] st'].
Qed.

Lemma run_events_frames es : ∀ st,
  ∃ new,
    trace (run_events es st) = trace st ++ new ∧ Forall json_frame new.
Proof.
  induction es as [|e es IH]; intros st.
  - exists []. simpl. by rewrite app_nil_r.
  - simpl. destruct (dispatch_frames e st) as (n1 & Ht1 & Hp1).
    destruct (IH (dispatch e st).2) as (n2 & Ht2 & Hp2).
    exists (n1 ++ n2). split; [by rewrite Ht2, Ht1, app_assoc|].
    by apply Forall_app.
Qed.

(** Startup sends no frame. *)
Lemma main_frames fuel : Forall json_frame (trace (main fuel boot).2).
Proof.
  set (st0 := set_wsClients [] (set_listening true boot)).
  assert (main fuel boot = start fuel st0) as -> by reflexivity.
  rewrite start_run. unfold connectToRabbit.
  destruct (connect_loop_phase fuel 0 INITIAL_DELAY_MS st0) as (n & [Ht _] & Hp & _).
  change (trace st0) with (@nil effect) in Ht. rewrite app_nil_l in Ht.
  assert (Forall json_frame n) as Hn.
  { eapply Forall_impl; [exact Hp|]. by intros []. }
  destruct (connect_loop fuel 0 INITIAL_DELAY_MS st0) as [[[]|e|] st1];
    cbn [fst snd trace emit_all] in *; rewrite Ht;
    [apply Forall_app; split; [done|]; by repeat constructor..|done].
Qed.

(** C10.  Every frame the relay sends is a JSON text.  Whatever the state
    of the relay, each frame sent while an event is handled (a
    connection, a client message, a pong, a close, a queue delivery, a
    firing of the heartbeat timer) is the serialization of a JSON value,
    also when the queue content was not JSON, and every serialization
    follows the grammar of RFC 8259; startup sends no frame, so every
    frame of every run is a JSON text. *)
Theorem frames_are_json :
  (∀ (e : event) (st : relay) (c : ref) (m : string),
     Sent c m ∈ new_effects st (dispatch e st).2 →
     (∃ v, m = JSON_stringify v) ∧ json_text m)
  ∧ (∀ (fuel : nat) (es : list event) (c : ref) (m : string),
       Sent c m ∈ trace (run_events es (main fuel boot).2) →
       (∃ v, m = JSON_stringify v) ∧ json_text m).
Proof.
  split.
  - intros e st c m. destruct (dispatch_frames e st) as (new & Ht & Hp).
    unfold new_effects. rewrite Ht, drop_app_length. intros Hin.
    rewrite Forall_forall in Hp. exact (Hp _ Hin).
  - intros fuel es c m.
    destruct (run_events_frames es (main fuel boot).2) as (new & -> & Hp).
    pose proof (main_frames fuel) as Hm.
    intros [Hin|Hin]%elem_of_app.
    + rewrite Forall_forall in Hm. exact (Hm _ Hin).
    + rewrite Forall_forall in Hp. exact (Hp _ Hin).
Qed.

(** ** Where a tick of the heartbeat stops *)

(** For every registry in which some client has its flag false, a tick
    of the heartbeat leaves every client behind the first such client
    as it was: not pinged, not terminated, its flag not cleared. *)
Lemma heartbeat_skips_after_first_dead pre c post (st : relay) :
  wsClients st = pre ++ c :: post →
  NoDup (wsClients st) →
  (∀ x, x ∈ pre → isAlive (the_ws st x) = true) →
  isAlive (the_ws st c) = false →
  ∀ y, y ∈ post →
    the_ws (heartbeat st).2 y = the_ws st y
    ∧ (Pinged y ∉ new_effects st (heartbeat st).2)
    ∧ (Terminated y ∉ new_effects st (heartbeat st).2).
Proof.
  intros Hreg Hnd Halive Hdead y Hy.
  rewrite Hreg in Hnd.
  assert (y ∉ pre ++ [c]) as Hfar.
  { replace (pre ++ c :: post) with ((pre ++ [c]) ++ post) in Hnd
      by (by rewrite <- app_assoc).
    apply NoDup_app in Hnd as (_ & Hdisj & _). intros Hin. by apply (Hdisj y). }
  assert (NoDup (pre ++ [c])) as Hnd'.
  { replace (pre ++ c :: post) with ((pre ++ [c]) ++ post) in Hnd
      by (by rewrite <- app_assoc).
    by apply NoDup_app in Hnd as (? & _ & _). }
  unfold heartbeat. rewrite run_bind. unfold Array_from_wsClients.
  rewrite run_bind, Hreg.
  destruct (heartbeat_loop c post pre st Hnd' Halive Hdead)
    as (st' & new & -> & Ht & Hp & Hw).
  cbn [snd ret]. unfold new_effects. rewrite Ht, drop_app_length.
  split; [by apply Hw|].
  rewrite Forall_forall in Hp.
  split; intros Hin; destruct (Hp _ Hin) as (z & [[= ->]|[= ->]] & Hz); done.
Qed.

(** ** One turn of the heartbeat loop, in full *)

Lemma touches_alter f x st new :
  touches x st (emit_all new (set_heap (alter f x (heap st)) st)) new.
Proof.
  unfold touches. cbn. repeat split; try done.
  - apply dom_alter_L.
  - intros y Hy. unfold the_ws. cbn. by rewrite lookup_alter_ne.
Qed.

Lemma the_ws_alter f x st :
  f no_ws = no_ws →
  the_ws (set_heap (alter f x (heap st)) st) x = f (the_ws st x).
Proof.
  intros Hf. unfold the_ws. cbn. rewrite lookup_alter_eq.
  by destruct (heap st !! x).
Qed.

Lemma heartbeat_turn_alive x st :
  isAlive (the_ws st x) = true →
  ∃ st',
    heartbeat_body x st = (Normal false, st')
    ∧ touches x st st' (if is_open st x then [Pinged x] else [])
    ∧ isAlive (the_ws st' x) = false
    ∧ readyState (the_ws st' x) = readyState (the_ws st x).
Proof.
  intros Halive. unfold heartbeat_body.
  rewrite run_bind, run_deref, Halive. cbn [negb].
  rewrite run_bind.
  change (set_isAlive x false st) with
    (Normal tt, set_heap (alter (fun w => {| readyState := readyState w;
       isAlive := false; send_throws := send_throws w |}) x (heap st)) st).
  cbv beta iota. rewrite run_bind. unfold ping. rewrite run_bind, run_deref.
  rewrite the_ws_alter by done. cbn [readyState].
  unfold is_open.
  destruct (decide (readyState (the_ws st x) = OPEN)) as [Ho|Hn].
  - rewrite bool_decide_eq_true_2 by done. rewrite run_emit.
    eexists. split; [reflexivity|]. split; [apply touches_alter|].
    change (the_ws (emit_all ?es ?s) x) with (the_ws s x).
    rewrite the_ws_alter by done. done.
  - rewrite bool_decide_eq_false_2 by done.
    eexists. split; [reflexivity|]. split.
    + rewrite <- (emit_all_nil (set_heap _ st)). apply touches_alter.
    + rewrite the_ws_alter by done. done.
Qed.

Lemma heartbeat_turn_dead x st :
  isAlive (the_ws st x) = false →
  ∃ st',
    heartbeat_body x st = (Normal true, st')
    ∧ touches x st st'
        (if decide (readyState (the_ws st x) = CLOSED) then [] else [Terminated x])
    ∧ (readyState (the_ws st x) ≠ CLOSED → readyState (the_ws st' x) = CLOSING).
Proof.
  intros Hdead. unfold heartbeat_body.
  rewrite run_bind, run_deref, Hdead. cbn [negb].
  unfold terminate. rewrite !run_bind, run_deref.
  destruct (decide (readyState (the_ws st x) = CLOSED)) as [Hc|Hc].
  - exists st. split; [reflexivity|]. split; [|done].
    unfold touches. rewrite app_nil_r. by repeat split.
  - rewrite run_bind.
    change (set_readyState x CLOSING st) with
      (Normal tt, set_heap (alter (fun w => {| readyState := CLOSING;
         isAlive := isAlive w; send_throws := send_throws w |}) x (heap st)) st).
    cbv beta iota. rewrite run_emit.
    eexists. split; [reflexivity|]. split; [apply touches_alter|].
    intros _. change (the_ws (emit_all ?es ?s) x) with (the_ws s x).
    unfold the_ws in *. cbn. rewrite lookup_alter_eq.
    destruct (heap st !! x); [done|]. by cbn in Hc.
Qed.

(** ** The heartbeat loop, in full *)

Lemma pings_ext st st' l :
  (∀ y, y ∈ l → the_ws st' y = the_ws st y) → pings st' l = pings st l.
Proof.
  intros H. unfold pings. f_equal.
  induction l as [|x l IH]; [done|].
  assert (is_open st' x = is_open st x) as Hx
    by (unfold is_open; rewrite (H x) by constructor; done).
  rewrite !filter_cons, IH by (intros; apply H; by constructor).
  destruct (decide (is_open st' x = true)), (decide (is_open st x = true));
    congruence.
Qed.

Lemma heartbeat_loop_all_alive l : ∀ st,
  NoDup l →
  (∀ x, x ∈ l → isAlive (the_ws st x) = true) →
  ∃ st',
    for_of_return l heartbeat_body st = (Normal false, st')
    ∧ trace st' = trace st ++ pings st l
    ∧ same_frame st st'
    ∧ (∀ y, y ∉ l → the_ws st' y = the_ws st y)
    ∧ (∀ x, x ∈ l →
         isAlive (the_ws st' x) = false
         ∧ readyState (the_ws st' x) = readyState (the_ws st x)).
Proof.
  induction l as [|x l IH]; intros st Hnd Halive.
  - exists st. simpl. unfold pings, same_frame. simpl. rewrite app_nil_r.
    split; [done|]. split; [done|]. split; [done|]. split; [done|].
    by intros ? ?%elem_of_nil.
  - apply NoDup_cons in Hnd as [Hx Hnd].
    destruct (heartbeat_turn_alive x st) as (st1 & E1 & T1 & Hf1 & Hr1);
      [apply Halive; constructor|].
    destruct T1 as (Ht1 & Hw1 & Hd1 & Hl1 & Hc1 & Hy1).
    destruct (IH st1 Hnd) as (st2 & E2 & Ht2 & F2 & Hy2 & Hx2).
    { intros y Hy. rewrite Hy1 by (intros ->; done). apply Halive. by constructor. }
    destruct F2 as (Hw2 & Hd2 & Hl2 & Hc2).
    exists st2. simpl. rewrite run_bind, E1. cbv beta iota. rewrite E2.
    split; [done|]. split; [|split; [|split]].
    + rewrite Ht2, Ht1, <- app_assoc. f_equal.
      rewrite (pings_ext st st1 l) by (intros y Hy; apply Hy1; intros ->; done).
      unfold pings. rewrite filter_cons.
      destruct (is_open st x); [rewrite decide_True by done|rewrite decide_False by done];
        done.
    + unfold same_frame. repeat split; congruence.
    + intros y Hy. apply not_elem_of_cons in Hy as [Hyx Hy].
      rewrite Hy2 by done. by apply Hy1.
    + intros y Hy. apply elem_of_cons in Hy as [->|Hy].
      * rewrite Hy2 by done. done.
      * destruct (Hx2 y Hy) as [Ha Hr]. split; [done|].
        rewrite Hr. f_equal. apply Hy1. intros ->. done.
Qed.

Lemma heartbeat_loop_first_dead c post pre : ∀ st,
  NoDup (pre ++ [c]) →
  (∀ x, x ∈ pre → isAlive (the_ws st x) = true) →
  isAlive (the_ws st c) = false →
  ∃ st',
    for_of_return (pre ++ c :: post) heartbeat_body st = (Normal true, st')
    ∧ trace st'
      = trace st ++ pings st pre
        ++ (if decide (readyState (the_ws st c) = CLOSED) then []
            else [Terminated c])
    ∧ same_frame st st'
    ∧ (∀ y, y ∉ pre ++ [c] → the_ws st' y = the_ws st y)
    ∧ (∀ x, x ∈ pre →
         isAlive (the_ws st' x) = false
         ∧ readyState (the_ws st' x) = readyState (the_ws st x))
    ∧ (readyState (the_ws st c) ≠ CLOSED → readyState (the_ws st' c) = CLOSING).
Proof.
  induction pre as [|x pre IH]; intros st Hnd Halive Hdead.
  - destruct (heartbeat_turn_dead c st Hdead) as (st1 & E1 & T1 & Hr1).
    destruct T1 as (Ht1 & Hw1 & Hd1 & Hl1 & Hc1 & Hy1).
    exists st1. simpl. rewrite run_bind, E1. cbv beta iota.
    split; [done|]. split; [done|]. split; [by repeat split|].
    split; [|split; [by intros ? ?%elem_of_nil | done]].
    intros y Hy. apply Hy1. intros ->. apply Hy. constructor.
  - change ((x :: pre) ++ [c]) with (x :: (pre ++ [c])) in Hnd.
    apply NoDup_cons in Hnd as [Hx Hnd].
    assert (x ≠ c) as Hxc by (intros ->; apply Hx, elem_of_app; right; constructor).
    assert (x ∉ pre) as Hxp by (intros Hin; apply Hx, elem_of_app; by left).
    destruct (heartbeat_turn_alive x st) as (st1 & E1 & T1 & Hf1 & Hr1);
      [apply Halive; constructor|].
    destruct T1 as (Ht1 & Hw1 & Hd1 & Hl1 & Hc1 & Hy1).
    destruct (IH st1 Hnd) as (st2 & E2 & Ht2 & F2 & Hy2 & Hx2 & Hr2).
    { intros y Hy. rewrite Hy1 by (intros ->; done). apply Halive. by constructor. }
    { by rewrite Hy1 by done. }
    destruct F2 as (Hw2 & Hd2 & Hl2 & Hc2).
    exists st2. simpl. rewrite run_bind, E1. cbv beta iota. rewrite E2.
    split; [done|]. split; [|split; [|split; [|split]]].
    + rewrite Ht2, Ht1, <- !app_assoc. f_equal.
      rewrite (pings_ext st st1 pre) by (intros y Hy; apply Hy1; intros ->; done).
      rewrite (Hy1 c) by done.
      unfold pings. rewrite filter_cons.
      destruct (decide (is_open st x = true)) as [Ho|Ho];
        [|apply not_true_is_false in Ho]; rewrite Ho; reflexivity.
    + unfold same_frame. repeat split; congruence.
    + intros y Hy. change ((x :: pre) ++ [c]) with (x :: (pre ++ [c])) in Hy.
      apply not_elem_of_cons in Hy as [Hyx Hy].
      rewrite Hy2 by done. by apply Hy1.
    + intros y Hy. apply elem_of_cons in Hy as [->|Hy].
      * rewrite Hy2 by done. done.
      * destruct (Hx2 y Hy) as [Ha Hr]. split; [done|].
        rewrite Hr. f_equal. apply Hy1. intros ->. done.
    + intros Hc. apply Hr2. by rewrite Hy1 by done.
Qed.

Lemma first_dead_split st l :
  (∀ x, x ∈ l → isAlive (the_ws st x) = true)
  ∨ ∃ pre c post,
      l = pre ++ c :: post
      ∧ (∀ x, x ∈ pre → isAlive (the_ws st x) = true)
      ∧ isAlive (the_ws st c) = false.
Proof.
  induction l as [|x l IH].
  - left. by intros ? ?%elem_of_nil.
  - destruct (isAlive (the_ws st x)) eqn:Hx.
    + destruct IH as [IH|(pre & c & post & -> & Hpre & Hc)].
      * left. intros y [->|Hy]%elem_of_cons; auto.
      * right. exists (x :: pre), c, post. split; [done|]. split; [|done].
        intros y [->|Hy]%elem_of_cons; auto.
    + right. exists [], x, l. split; [done|]. split; [|done].
      by intros ? ?%elem_of_nil.
Qed.

Lemma sent_not_ping c l e : e ∈ map Pinged l → e ≠ Terminated c.
Proof. intros (x & -> & _)%list_elem_of_fmap. done. Qed.

(** ** The heartbeat on a registry without dead sockets *)

(** X1.  When every registered socket has its flag set, a tick of the
    heartbeat returns normally, pings every open socket of the registry
    once, in registry order, and nothing else; it clears the flag of
    every registered socket, terminates none and leaves the registry as
    it was. *)
Theorem heartbeat_all_alive (st : relay) :
  NoDup (wsClients st) →
  (∀ x, x ∈ wsClients st → isAlive (the_ws st x) = true) →
  ∃ st',
    heartbeat st = (Normal tt, st')
    ∧ new_effects st st'
      = map Pinged (filter (fun c => is_open st c = true) (wsClients st))
    ∧ wsClients st' = wsClients st
    ∧ ∀ x, x ∈ wsClients st →
        isAlive (the_ws st' x) = false
        ∧ readyState (the_ws st' x) = readyState (the_ws st x).
Proof.
  intros Hnd Halive.
  destruct (heartbeat_loop_all_alive (wsClients st) st Hnd Halive)
    as (st' & E & Ht & (Hw & _) & _ & Hx).
  exists st'. rewrite run_heartbeat, E. split; [done|].
  split; [|by split].
  unfold new_effects. by rewrite Ht, drop_app_length.
Qed.

(** ** Whom a tick terminates *)

Lemma terminated_was_dead (st : relay) (c : ref) :
  NoDup (wsClients st) →
  Terminated c ∈ new_effects st (heartbeat st).2 →
  c ∈ wsClients st
  ∧ isAlive (the_ws st c) = false
  ∧ ∀ d, Terminated d ∈ new_effects st (heartbeat st).2 → d = c.
Proof.
  intros Hnd. rewrite run_heartbeat.
  destruct (first_dead_split st (wsClients st))
    as [Halive|(pre & v & post & Hreg & Hpre & Hv)].
  - destruct (heartbeat_loop_all_alive (wsClients st) st Hnd Halive)
      as (st' & -> & Ht & _).
    cbn [snd]. unfold new_effects. rewrite Ht, drop_app_length.
    intros Hin. by apply (sent_not_ping c) in Hin.
  - rewrite Hreg in Hnd |- *.
    assert (NoDup (pre ++ [v])) as Hnd'.
    { replace (pre ++ v :: post) with ((pre ++ [v]) ++ post) in Hnd
        by (by rewrite <- app_assoc).
      by apply NoDup_app in Hnd as (? & _ & _). }
    destruct (heartbeat_loop_first_dead v post pre st Hnd' Hpre Hv)
      as (st' & -> & Ht & _).
    cbn [snd]. unfold new_effects. rewrite Ht, drop_app_length.
    assert (∀ d, Terminated d
              ∈ pings st pre
                ++ (if decide (readyState (the_ws st v) = CLOSED) then []
                    else [Terminated v]) → d = v) as Hone.
    { intros d [Hin|Hin]%elem_of_app.
      - by apply (sent_not_ping d) in Hin.
      - destruct (decide (readyState (the_ws st v) = CLOSED)).
        + by apply elem_of_nil in Hin.
        + apply list_elem_of_singleton in Hin. congruence. }
    intros Hin. apply Hone in Hin as Hcv. subst c.
    split; [|split; [done|]].
    + apply elem_of_app. right. constructor.
    + intros d Hd. by apply Hone.
Qed.

(** X2.  A tick of the heartbeat terminates at most one socket, and only
    a registered socket whose flag was false when the tick began: a
    socket that answered the last ping is never terminated. *)
Theorem heartbeat_terminates_only_dead (st : relay) (c : ref) :
  NoDup (wsClients st) →
  Terminated c ∈ new_effects st (heartbeat st).2 →
  c ∈ wsClients st
  ∧ isAlive (the_ws st c) = false
  ∧ ∀ d, Terminated d ∈ new_effects st (heartbeat st).2 → d = c.
Proof. apply terminated_was_dead. Qed.

(** ** Close events after a tick *)

Lemma close_loop L : ∀ st,
  ∃ st' logs,
    for_of L (fun client => set_readyState client CLOSED;; on_close client) st
    = (Normal tt, st')
    ∧ wsClients st' = filter (fun y => y ∉ L) (wsClients st)
    ∧ trace st' = trace st ++ logs
    ∧ Forall (fun e => ∃ n, e = Log (LogClientDisconnected n)) logs.
Proof using Type.
  induction L as [|x L IH]; intros st.
  - exists st, []. simpl. rewrite app_nil_r. repeat split; try done.
    induction (wsClients st) as [|y l IHl]; [done|].
    rewrite filter_cons_True by (by intros ?%elem_of_nil). by f_equal.
  - simpl. rewrite !run_bind.
    change (set_readyState x CLOSED st) with
      (Normal tt, set_heap (alter (fun w => {| readyState := CLOSED;
         isAlive := isAlive w; send_throws := send_throws w |}) x (heap st)) st).
    cbv beta iota. rewrite run_on_close.
    match goal with |- context [for_of L _ ?s] =>
      destruct (IH s) as (st' & logs & -> & Hw & Ht & Hl)
    end.
    exists st',
      (Log (LogClientDisconnected (length (Set_delete x (wsClients st)))) :: logs).
    split; [done|]. cbn in Hw, Ht. repeat split.
    + rewrite Hw. unfold Set_delete. rewrite list_filter_filter.
      apply list_filter_iff. intros y. rewrite not_elem_of_cons.
      split; intros [? ?]; by split.
    + rewrite Ht, <- app_assoc. reflexivity.
    + constructor; [by eexists | done].
Qed.

(** ** The first dead socket is evicted *)

(** X3.  When the first registered socket whose flag is false is not
    closed yet, a tick terminates it, and once the close events of the
    tick have fired it is out of the registry; the sockets that are not
    closing stay registered. *)
Theorem monitor_tick_evicts_first_dead (st : relay) pre c post :
  wsClients st = pre ++ c :: post →
  NoDup (wsClients st) →
  (∀ x, x ∈ pre → isAlive (the_ws st x) = true) →
  isAlive (the_ws st c) = false →
  readyState (the_ws st c) ≠ CLOSED →
  ∃ st',
    monitor_tick st = (Normal tt, st')
    ∧ Terminated c ∈ new_effects st st'
    ∧ (c ∉ wsClients st')
    ∧ ∀ y, y ∈ wsClients st → y ≠ c →
        readyState (the_ws st y) ≠ CLOSING → y ∈ wsClients st'.
Proof.
  intros Hreg Hnd Hpre Hc Hopen.
  assert (NoDup (pre ++ [c])) as Hnd'.
  { rewrite Hreg in Hnd.
    replace (pre ++ c :: post) with ((pre ++ [c]) ++ post) in Hnd
      by (by rewrite <- app_assoc).
    by apply NoDup_app in Hnd as (? & _ & _). }
  destruct (heartbeat_loop_first_dead c post pre st Hnd' Hpre Hc)
    as (st1 & E1 & Ht1 & (Hw1 & _) & Hfar & Hcleared & Hclosing).
  rewrite decide_False in Ht1 by done.
  unfold monitor_tick. rewrite run_bind, run_heartbeat, Hreg, E1.
  cbv beta iota. unfold fire_close_events. rewrite run_bind. cbn [get].
  destruct (close_loop (filter (fun x => closing st1 x = true) (wsClients st1)) st1)
    as (st2 & logs & -> & Hw2 & Ht2 & Hl2).
  exists st2. split; [done|]. split; [|split].
  - unfold new_effects. rewrite Ht2, Ht1, <- !app_assoc, drop_app_length.
    apply elem_of_app. right. apply elem_of_app. left. constructor.
  - rewrite Hw2, list_elem_of_filter. intros [Hnot _]. apply Hnot.
    rewrite list_elem_of_filter. split.
    + unfold closing. rewrite Hclosing by done. by apply bool_decide_eq_true_2.
    + rewrite Hw1, Hreg. apply elem_of_app. right. constructor.
  - intros y Hy Hyc Hny. rewrite Hw2, list_elem_of_filter. split.
    + rewrite list_elem_of_filter. intros [Hcl _].
      unfold closing in Hcl. apply bool_decide_eq_true_1 in Hcl.
      destruct (decide (y ∈ pre)) as [Hin|Hout].
      * destruct (Hcleared y Hin) as [_ Hr]. by rewrite Hr in Hcl.
      * rewrite Hfar in Hcl; [done|].
        intros [?|?%list_elem_of_singleton]%elem_of_app; done.
    + by rewrite Hw1, Hreg.
Qed.

(** ** One event at a time *)

(** Membership in a short explicit list of other effects. *)
Ltac not_in_list H :=
  apply list_elem_of_In in H; simpl in H;
  repeat (destruct H as [[=]|H]); try done.

Lemma delivered_sub st l c :
  c ∈ delivered st l → c ∈ l ∧ is_open st c = true.
Proof.
  induction l as [|x l IH]; simpl; [by intros ?%elem_of_nil|].
  destruct (send_fails st x); [by intros ?%elem_of_nil|].
  destruct (is_open st x) eqn:Hx.
  - intros [->|Hc]%elem_of_cons; [split; [constructor|done]|].
    destruct (IH Hc). split; [by constructor|done].
  - intros Hc. destruct (IH Hc). split; [by constructor|done].
Qed.

Lemma sent_in_frames_to c m frame clients :
  Sent c m ∈ frames frame clients → c ∈ clients.
Proof.
  unfold frames. intros (x & [= -> _] & Hx)%list_elem_of_fmap. done.
Qed.

Lemma step_ok_emit st new :
  registry_inv st →
  (∀ c m, Sent c m ∈ new → c ∈ wsClients st ∧ is_open st c = true) →
  step_ok st (emit_all new st) new.
Proof.
  intros Hinv Hsent. unfold step_ok. cbn.
  split; [done|]. split; [done|]. split; [done|]. split; [by left|done].
Qed.

Lemma accept_step w st :
  registry_inv st →
  ∃ st' new, accept w st = (Normal tt, st') ∧ step_ok st st' new.
Proof.
  intros [Hnd Hreg]. unfold accept. rewrite run_bind. cbn [get].
  destruct (listening st).
  - set (client := fresh (dom (heap st))).
    assert (client ∉ dom (heap st)) as Hfresh by apply is_fresh.
    assert (client ∉ wsClients st) as Hnew by (intros Hin; by apply Hfresh, Hreg).
    unfold on_connection. repeat (rewrite run_bind; cbn).
    unfold Set_add. rewrite decide_False by done.
    eexists _, [_]. split; [reflexivity|]. unfold step_ok. cbn.
    split; [done|]. split; [|split; [|split; [|split]]].
    + intros c m Hin. by not_in_list Hin.
    + intros r Hr. rewrite dom_alter_L, dom_insert_L. by apply elem_of_union_r.
    + intros r [Hr|Hr%list_elem_of_singleton]%elem_of_app;
        [by left | subst r; by right].
    + apply NoDup_app. split; [done|]. split; [|apply NoDup_singleton].
      intros r Hr Hr'%list_elem_of_singleton. by subst r.
    + intros r [Hr|Hr%list_elem_of_singleton]%elem_of_app;
        cbn; rewrite dom_alter_L, dom_insert_L.
      * apply elem_of_union_r. by apply Hreg.
      * apply elem_of_union_l. by apply elem_of_singleton.
  - exists st, []. split; [done|]. rewrite <- (emit_all_nil st) at 2.
    apply step_ok_emit; [done|]. by intros ? ? ?%elem_of_nil.
Qed.

Lemma heartbeat_step st :
  registry_inv st →
  ∃ st' new, heartbeat st = (Normal tt, st') ∧ step_ok st st' new.
Proof.
  intros [Hnd Hreg]. rewrite run_heartbeat.
  assert (∀ st' new,
            trace st' = trace st ++ new →
            same_frame st st' →
            (∀ e, e ∈ new → ∃ c, e = Pinged c ∨ e = Terminated c) →
            step_ok st st' new) as Hok.
  { intros st' new Ht (Hw & Hd & _) Hp. unfold step_ok, registry_inv.
    rewrite Hw, Hd. split; [done|]. split; [|split; [done|split; [by left|done]]].
    intros c m Hin. destruct (Hp _ Hin) as (x & [[=]|[=]]). }
  destruct (first_dead_split st (wsClients st))
    as [Halive|(pre & v & post & Hsplit & Hpre & Hv)].
  - destruct (heartbeat_loop_all_alive (wsClients st) st Hnd Halive)
      as (st' & -> & Ht & F & _).
    exists st', (pings st (wsClients st)). split; [done|].
    apply Hok; [done|done|].
    intros e (x & -> & _)%list_elem_of_fmap. eauto.
  - rewrite Hsplit in Hnd |- *.
    assert (NoDup (pre ++ [v])) as Hnd'.
    { replace (pre ++ v :: post) with ((pre ++ [v]) ++ post) in Hnd
        by (by rewrite <- app_assoc).
      by apply NoDup_app in Hnd as (? & _ & _). }
    destruct (heartbeat_loop_first_dead v post pre st Hnd' Hpre Hv)
      as (st' & -> & Ht & F & _).
    eexists st', _. split; [done|].
    apply Hok; [exact Ht|done|].
    intros e [(x & -> & _)%list_elem_of_fmap|Hin]%elem_of_app; [eauto|].
    destruct (decide (readyState (the_ws st v) = CLOSED)).
    + by apply elem_of_nil in Hin.
    + apply list_elem_of_singleton in Hin. eauto.
Qed.

Lemma dispatch_step e st :
  registry_inv st →
  ∃ st' new, dispatch e st = (Normal tt, st') ∧ step_ok st st' new.
Proof.
  intros Hinv. destruct e as [w|message|client|client|msg|]; simpl.
  - by apply accept_step.
  - rewrite on_message_run.
    destruct (JSON_parse message) as [data|]; eexists _, _;
      (split; [reflexivity|]); apply step_ok_emit; try done.
    + intros c m [Hin|Hin]%elem_of_app.
      * by apply sent_in_frames_to, delivered_sub in Hin.
      * destruct (abandoned_at st (wsClients st));
          apply list_elem_of_In in Hin; simpl in Hin;
          repeat (destruct Hin as [[=]|Hin]); done.
    + intros c m Hin. by not_in_list Hin.
  - exists (set_heap (alter (fun w => {| readyState := readyState w;
      isAlive := true; send_throws := send_throws w |}) client (heap st)) st), [].
    split; [reflexivity|]. destruct Hinv as [Hnd Hreg].
    unfold step_ok, registry_inv. cbn. rewrite app_nil_r, dom_alter_L.
    split; [done|]. split; [by intros ? ? ?%elem_of_nil|].
    split; [done|]. split; [by left|done].
  - rewrite run_on_close. eexists _, [_]. split; [reflexivity|].
    destruct Hinv as [Hnd Hreg]. unfold step_ok, registry_inv, Set_delete. cbn.
    split; [done|]. split; [|split; [done|split; [|split]]].
    + intros c m Hin. by not_in_list Hin.
    + intros r [_ Hr]%list_elem_of_filter. by left.
    + by apply NoDup_filter.
    + intros r [_ Hr]%list_elem_of_filter. by apply Hreg.
  - destruct msg as [msg|].
    + rewrite consumer_run. eexists _, _. split; [reflexivity|].
      apply step_ok_emit; [done|].
      intros c m [[=]|[Hin|Hin]%elem_of_app]%elem_of_cons.
      * by apply sent_in_frames_to, delivered_sub in Hin.
      * unfold settle in Hin.
        destruct (abandoned_at st (wsClients st)), (channel_open st);
          apply list_elem_of_In in Hin; simpl in Hin;
          repeat (destruct Hin as [[=]|Hin]); done.
    + exists st, []. split; [reflexivity|]. rewrite <- (emit_all_nil st) at 2.
      apply step_ok_emit; [done|]. by intros ? ? ?%elem_of_nil.
  - by apply heartbeat_step.
Qed.

(** ** The channel while the relay consumes *)

Lemma heartbeat_loop_channel l : ∀ st,
  channel_open (for_of_return l heartbeat_body st).2 = channel_open st.
Proof using Type.
  induction l as [|x l IH]; intros st; [done|].
  simpl. rewrite run_bind.
  destruct (isAlive (the_ws st x)) eqn:Hx.
  - destruct (heartbeat_turn_alive x st Hx) as (st1 & -> & T & _).
    destruct T as (_ & _ & _ & _ & Hc & _). by rewrite IH.
  - destruct (heartbeat_turn_dead x st Hx) as (st1 & -> & T & _).
    by destruct T as (_ & _ & _ & _ & Hc & _).
Qed.

(** No handler closes the channel or opens it. *)
Lemma dispatch_keeps_channel e st :
  channel_open (dispatch e st).2 = channel_open st.
Proof using Type.
  destruct e as [w|message|client|client|msg|]; cbn [dispatch].
  - unfold accept. rewrite run_bind. cbn [get].
    destruct (listening st); [|done].
    unfold on_connection. by repeat (rewrite run_bind; cbn).
  - rewrite on_message_run. by destruct (JSON_parse message).
  - done.
  - by rewrite run_on_close.
  - destruct msg as [msg|]; [by rewrite consumer_run | done].
  - rewrite run_heartbeat.
    pose proof (heartbeat_loop_channel (wsClients st) st) as Hc.
    by destruct (for_of_return (wsClients st) heartbeat_body st) as [[b|e|] st'].
Qed.

(** Once [start] has begun to consume, the channel is open in every
    state the relay reaches: every delivery is handled on an open
    channel. *)
Lemma channel_open_while_consuming fuel es :
  Consume false ∈ trace (main fuel boot).2 →
  channel_open (run_events es (main fuel boot).2) = true.
Proof using Type.
  intros Hin.
  assert (channel_open (main fuel boot).2 = true) as Hopen.
  { revert Hin.
    set (st0 := set_wsClients [] (set_listening true boot)).
    assert (main fuel boot = start fuel st0) as -> by reflexivity.
    rewrite start_run. unfold connectToRabbit.
    destruct (connect_loop_phase fuel 0 INITIAL_DELAY_MS st0)
      as (n & [Ht _] & Hp & Hn).
    change (trace st0) with (@nil effect) in Ht. rewrite app_nil_l in Ht.
    assert (Consume false ∉ n) as Hno.
    { intros Hin. rewrite Forall_forall in Hp. exact (Hp _ Hin). }
    destruct (connect_loop fuel 0 INITIAL_DELAY_MS st0) as [[[]|e|] st1];
      cbn [fst snd trace emit_all channel_open] in *.
    - intros _. by destruct (Hn eq_refl).
    - rewrite Ht. intros [Hin|Hin]%elem_of_app; [done|]. by not_in_list Hin.
    - by rewrite Ht. }
  revert Hopen. generalize (main fuel boot).2. clear Hin.
  induction es as [|e es IH]; intros st Hopen; [done|].
  simpl. apply IH. by rewrite dispatch_keeps_channel.
Qed.

(** ** Startup keeps the registry well formed *)

Lemma accepts_inv l : ∀ st,
  registry_inv st →
  ∃ st', for_of l accept st = (Normal tt, st') ∧ registry_inv st'.
Proof.
  induction l as [|w l IH]; intros st Hinv; simpl.
  - by exists st.
  - rewrite run_bind.
    destruct (accept_step w st Hinv) as (st1 & n1 & -> & S1).
    destruct S1 as (_ & _ & _ & _ & Hinv1).
    destruct (IH st1 Hinv1) as (st2 & -> & Hinv2). by exists st2.
Qed.

Lemma connect_loop_inv fuel : ∀ a d st,
  registry_inv st → registry_inv (connect_loop fuel a d st).2.
Proof.
  induction fuel as [|fuel IH]; intros a d st Hinv; [done|].
  simpl.
  rewrite run_bind, run_try_catch, !run_bind. simpl.
  rewrite !run_bind. simpl. rewrite !run_bind.
  match goal with |- context [for_of _ accept ?s] =>
    destruct (accepts_inv (arrivals (a + 1)) s) as (st1 & -> & Hinv1);
      [exact Hinv|]
  end.
  destruct (amqp_connect (a + 1)); simpl.
  - exact Hinv1.
  - destruct (bool_decide (MAX_RETRIES ≤ a + 1)); rewrite !run_bind; simpl.
    + exact Hinv1.
    + apply IH. exact Hinv1.
Qed.

Lemma main_inv fuel : registry_inv (main fuel boot).2.
Proof.
  set (st0 := set_wsClients [] (set_listening true boot)).
  assert (main fuel boot = start fuel st0) as -> by reflexivity.
  assert (registry_inv (connectToRabbit fuel st0).2) as Hinv.
  { apply connect_loop_inv. split; [constructor|]. by intros ? ?%elem_of_nil. }
  rewrite start_run.
  by destruct (connectToRabbit fuel st0) as [[[]|e|] st1].
Qed.

(** ** Sequences of events *)

Lemma run_events_steps es : ∀ st,
  registry_inv st →
  ∃ new,
    trace (run_events es st) = trace st ++ new
    ∧ registry_inv (run_events es st)
    ∧ ∀ c, gone c st →
        gone c (run_events es st) ∧ ∀ m, Sent c m ∉ new.
Proof.
  induction es as [|e es IH]; intros st Hinv.
  - exists []. simpl. rewrite app_nil_r. split; [done|]. split; [done|].
    intros c Hc. split; [done|]. by intros m ?%elem_of_nil.
  - simpl.
    destruct (dispatch_step e st Hinv) as (st1 & n1 & -> & S1).
    destruct S1 as (Ht1 & Hsent1 & Hdom1 & Hreg1 & Hinv1).
    destruct (IH st1 Hinv1) as (n2 & Ht2 & Hinv2 & Hgone2).
    exists (n1 ++ n2). cbn [snd]. split; [by rewrite Ht2, Ht1, app_assoc|].
    split; [done|]. intros c [Hc Hd].
    assert (gone c st1) as Hg1.
    { split; [|by apply Hdom1]. intros Hin. by destruct (Hreg1 c Hin). }
    destruct (Hgone2 c Hg1) as [Hg2 Hns]. split; [done|].
    intros m [Hin|Hin]%elem_of_app; [|by apply (Hns m)].
    by destruct (Hsent1 c m Hin).
Qed.

Lemma reachable_inv fuel es : registry_inv (run_events es (main fuel boot).2).
Proof.
  destruct (run_events_steps es (main fuel boot).2 (main_inv fuel))
    as (n & _ & H & _). exact H.
Qed.

(** X4.  In every state the relay reaches, from the loading of the
    module through startup and any sequence of events, no socket is
    registered twice and every registered socket exists. *)
Theorem registry_well_formed (fuel : nat) (es : list event) :
  let st := run_events es (main fuel boot).2 in
  NoDup (wsClients st) ∧ ∀ r, r ∈ wsClients st → is_Some (heap st !! r).
Proof.
  destruct (reachable_inv fuel es) as [Hnd Hreg]. split; [done|].
  intros r Hr. by apply elem_of_dom, Hreg.
Qed.

(** X5.  In every state the relay reaches, handling an event returns
    normally: no exception of a handler reaches the event loop. *)
Theorem handlers_return_normally (fuel : nat) (es : list event) (e : event) :
  (dispatch e (run_events es (main fuel boot).2)).1 = Normal tt.
Proof.
  destruct (dispatch_step e _ (reachable_inv fuel es))
    as (st' & new & -> & _). done.
Qed.

(** X6.  In every state the relay reaches, each frame sent while an
    event is handled goes to a socket that was registered and open when
    the handling began. *)
Theorem frames_go_to_registered_open_sockets
    (fuel : nat) (es : list event) (e : event) (c : ref) (m : string) :
  let st := run_events es (main fuel boot).2 in
  Sent c m ∈ new_effects st (dispatch e st).2 →
  c ∈ wsClients st ∧ is_open st c = true.
Proof.
  intros st.
  destruct (dispatch_step e st (reachable_inv fuel es))
    as (st' & new & -> & Ht & Hsent & _).
  cbn [snd]. unfold new_effects. rewrite Ht, drop_app_length. apply Hsent.
Qed.

(** X7.  Once the close event of a registered socket has been handled,
    the socket is never registered again and no frame is sent to it,
    whatever events follow. *)
Theorem no_frame_after_close (st : relay) (c : ref) (es : list event) :
  registry_inv st →
  c ∈ wsClients st →
  let st1 := (on_close c st).2 in
  (c ∉ wsClients (run_events es st1))
  ∧ ∀ m, Sent c m ∉ new_effects st1 (run_events es st1).
Proof.
  intros Hinv Hc st1.
  assert (registry_inv st1 ∧ gone c st1) as [Hinv1 Hg1].
  { destruct Hinv as [Hnd Hreg]. unfold st1. rewrite run_on_close. cbn [snd].
    unfold registry_inv, gone, Set_delete. cbn. repeat split.
    - by apply NoDup_filter.
    - intros r [_ Hr]%list_elem_of_filter. by apply Hreg.
    - by intros [Hne _]%list_elem_of_filter.
    - by apply Hreg. }
  destruct (run_events_steps es st1 Hinv1) as (new & Ht & _ & Hgone).
  destruct (Hgone c Hg1) as [[Hout _] Hns]. split; [done|].
  intros m. unfold new_effects. rewrite Ht, drop_app_length. apply Hns.
Qed.

(** ** Every open socket gets a frame once *)

Lemma occurrences_frames msg c l :
  NoDup l → c ∈ l → occurrences (Sent c msg) (frames msg l) = 1%nat.
Proof.
  unfold occurrences, frames. induction 1 as [|x l Hx Hnd IH]; [by intros ?%elem_of_nil|].
  intros Hc. simpl. rewrite filter_cons.
  destruct (decide (x = c)) as [->|Hne].
  - rewrite decide_True by done. simpl. f_equal.
    clear IH Hc Hnd. induction l as [|y l IHl]; [done|].
    apply not_elem_of_cons in Hx as [Hcy Hx]. simpl.
    rewrite filter_cons, decide_False by congruence. by apply IHl.
  - rewrite decide_False by congruence.
    apply elem_of_cons in Hc as [->|Hc]; [done|]. by apply IH.
Qed.

(** X8.  When the registry holds no socket twice and no send raises,
    [broadcast] sends the frame to each registered open socket exactly
    once. *)
Theorem broadcast_exactly_once (msg : string) (st : relay) (c : ref) :
  NoDup (wsClients st) →
  (∀ x, x ∈ wsClients st → send_fails st x = false) →
  c ∈ wsClients st →
  is_open st c = true →
  occurrences (Sent c msg) (new_effects st (broadcast msg st).2) = 1%nat.
Proof.
  intros Hnd Hsend Hc Ho. rewrite broadcast_run. cbn [snd].
  rewrite new_effects_emit_all.
  destruct (delivered_no_failure st (wsClients st) Hsend) as [-> _].
  apply occurrences_frames.
  - by apply NoDup_filter.
  - by apply list_elem_of_filter.
Qed.

(** ** A connection and its close *)

(** X9.  When the server listens, a client that connects is registered
    last and the size of the registry grows by one; handling its close
    event gives back the registry as it was. *)
Theorem connect_then_close (w : ws) (st : relay) :
  listening st = true →
  (∀ r, r ∈ wsClients st → r ∈ dom (heap st)) →
  let client := fresh (dom (heap st)) in
  wsClients (accept w st).2 = wsClients st ++ [client]
  ∧ wsClients (on_close client (accept w st).2).2 = wsClients st.
Proof.
  intros Hl Hreg client.
  assert (client ∉ wsClients st) as Hnew.
  { intros Hin. by apply (is_fresh (dom (heap st))), Hreg. }
  assert (wsClients (accept w st).2 = wsClients st ++ [client]) as Hacc.
  { unfold accept. rewrite run_bind. cbn [get]. rewrite Hl.
    unfold on_connection. repeat (rewrite run_bind; cbn).
    unfold Set_add. fold client. by rewrite decide_False. }
  split; [done|]. rewrite run_on_close. cbn [snd]. cbn. rewrite Hacc.
  unfold Set_delete. rewrite filter_app.
  rewrite (filter_singleton_False _ client []) by (intros H; by apply H).
  rewrite app_nil_r. clear Hacc Hreg.
  induction (wsClients st) as [|y l IHl]; [done|].
  apply not_elem_of_cons in Hnew as [Hne Hnew].
  rewrite filter_cons_True by done. f_equal. by apply IHl.
Qed.

(** ** A broker that answers *)

(** X10.  When the broker answers the [k]-th attempt after [k-1]
    failures, and the retry bound allows [k-1] retries,
    [connectToRabbit] returns normally with the channel open after
    exactly the attempts 1 to [k] and [k-1] waits. *)
Theorem connect_returns_at_first_answer (k fuel : nat) (st : relay) :
  (1 ≤ k)%nat →
  (∀ i, 1 ≤ i < Z.of_nat k → amqp_connect i = false) →
  amqp_connect (Z.of_nat k) = true →
  (k = 1%nat ∨ Z.of_nat k ≤ MAX_RETRIES) →
  (k ≤ fuel)%nat →
  ∃ st' new,
    connectToRabbit fuel st = (Normal tt, st')
    ∧ channel_open st' = true
    ∧ trace st' = trace st ++ new
    ∧ attempts new = seqZ 1 (Z.of_nat k)
    ∧ length (sleeps new) = (k - 1)%nat.
Proof.
  intros Hk Hfail Hok Hmax Hfuel.
  replace fuel with ((k - 1) + S (fuel - k))%nat by lia.
  unfold connectToRabbit.
  destruct (connect_loop_unroll (k - 1) (S (fuel - k)) 0 INITIAL_DELAY_MS st)
    as (st1 & n1 & -> & [Ht1 _] & Hs1 & Ha1 & _);
    [intros; apply Hfail; lia | lia |].
  destruct (connect_loop_success (fuel - k) (0 + Z.of_nat (k - 1))
              (delay_after (k - 1) INITIAL_DELAY_MS) st1)
    as (st2 & n2 & -> & [Ht2 _] & Hs2 & Ha2 & Ho2 & _).
  { replace (0 + Z.of_nat (k - 1) + 1) with (Z.of_nat k) by lia. done. }
  exists st2, (n1 ++ n2). split; [done|]. split; [done|].
  split; [by rewrite Ht2, Ht1, app_assoc|]. split.
  - rewrite attempts_app, Ha1, Ha2, attempts_from_seqZ.
    replace (Z.of_nat k) with (Z.of_nat (k - 1) + 1) by lia.
    rewrite seqZ_app by lia. f_equal.
    change (seqZ (1 + Z.of_nat (k - 1)) 1) with [0 + (1 + Z.of_nat (k - 1))].
    f_equal. lia.
  - rewrite sleeps_app, Hs1, Hs2, app_nil_r. apply waits_length.
Qed.

(** ** How long the retries wait *)

Lemma delay_after_range k : ∀ d,
  0 ≤ d ≤ 30000 → d ≤ delay_after k d ≤ 30000.
Proof.
  induction k as [|k IH]; intros d Hd; simpl; [lia|].
  destruct (IH (Z.min (d * 2) 30000)); lia.
Qed.

Lemma waits_range k : ∀ a d,
  0 ≤ d ≤ 30000 → Forall (fun w => d ≤ w < 30300) (waits k a d).
Proof.
  induction k as [|k IH]; intros a d Hd; simpl; [constructor|].
  pose proof (jitter_range (a + 1)).
  constructor; [lia|].
  eapply Forall_impl; [apply (IH (a + 1) (Z.min (d * 2) 30000)); lia|].
  simpl. intros w Hw. lia.
Qed.

(** X11.  With an initial delay between 0 and 30000 ms and a broker
    that never answers, [connectToRabbit] waits [max 1 MAX_RETRIES - 1]
    times before it gives up, and each wait is at least the initial
    delay and shorter than 30300 ms. *)
Theorem waits_are_bounded (fuel : nat) (st : relay) :
  0 ≤ INITIAL_DELAY_MS ≤ 30000 →
  (∀ i, 1 ≤ i → amqp_connect i = false) →
  Z.max 1 MAX_RETRIES ≤ Z.of_nat fuel →
  ∃ new,
    trace (connectToRabbit fuel st).2 = trace st ++ new
    ∧ Z.of_nat (length (sleeps new)) = Z.max 1 MAX_RETRIES - 1
    ∧ Forall (fun w => INITIAL_DELAY_MS ≤ w < 30300) (sleeps new).
Proof.
  intros Hd Hfail Hfuel.
  remember (Z.to_nat (Z.max 1 MAX_RETRIES - 1)) as k eqn:Hk.
  replace fuel with (k + S (fuel - S k))%nat by lia.
  unfold connectToRabbit.
  destruct (connect_loop_unroll k (S (fuel - S k)) 0 INITIAL_DELAY_MS st)
    as (st1 & n1 & -> & [Ht1 _] & Hs1 & _); [intros; apply Hfail; lia | lia |].
  destruct (connect_loop_last (fuel - S k) (0 + Z.of_nat k)
              (delay_after k INITIAL_DELAY_MS) st1)
    as (st2 & n2 & -> & [Ht2 _] & Hs2 & _); [apply Hfail; lia | lia |].
  exists (n1 ++ n2). cbn [snd]. split; [by rewrite Ht2, Ht1, app_assoc|].
  rewrite sleeps_app, Hs1, Hs2, app_nil_r. split.
  - rewrite waits_length. lia.
  - by apply waits_range.
Qed.

(** ** Startup against a broker that never answers *)

(** X12.  When the broker never answers, [start] does not raise: the
    error of [connectToRabbit] is caught, and startup ends with the
    failure line and [process.exit(1)].  No queue is declared or
    consumed, no heartbeat timer is set, readiness is never logged, and
    no channel is open. *)
Theorem start_exits_when_broker_is_down (fuel : nat) :
  (∀ i, 1 ≤ i → amqp_connect i = false) →
  Z.max 1 MAX_RETRIES ≤ Z.of_nat fuel →
  ∃ st' tr,
    main fuel boot = (Normal tt, st')
    ∧ trace st' = tr ++ [Log LogStartFailed; Exit 1]
    ∧ Forall (fun e => serving e = false) tr
    ∧ channel_open st' = false.
Proof.
  intros Hfail Hfuel.
  set (st0 := set_wsClients [] (set_listening true boot)).
  assert (main fuel boot = start fuel st0) as -> by reflexivity.
  rewrite start_run. unfold connectToRabbit.
  destruct (connect_loop_phase fuel 0 INITIAL_DELAY_MS st0)
    as (n & [Ht _] & Hp & _).
  remember (Z.to_nat (Z.max 1 MAX_RETRIES - 1)) as k eqn:Hk.
  revert Ht Hp. replace fuel with (k + S (fuel - S k))%nat by lia.
  destruct (connect_loop_unroll k (S (fuel - S k)) 0 INITIAL_DELAY_MS st0)
    as (st1 & n1 & -> & _ & _ & _ & Hc1);
    [intros; apply Hfail; lia | lia |].
  destruct (connect_loop_last (fuel - S k) (0 + Z.of_nat k)
              (delay_after k INITIAL_DELAY_MS) st1)
    as (st2 & n2 & -> & _ & _ & _ & Hc2 & _); [apply Hfail; lia | lia |].
  cbn [fst snd]. intros Ht Hp.
  eexists _, n. split; [reflexivity|]. cbn. split; [by rewrite Ht|].
  split; [|by rewrite Hc2, Hc1].
  eapply Forall_impl; [exact Hp|]. by intros [| | | | | | | | | | | |[]].
Qed.

(** X13.  A registered socket whose pong has been handled since the last
    tick is not terminated by the next tick, wherever it stands in the
    registry. *)
Theorem pong_protects_until_next_tick (st : relay) (c : ref) :
  NoDup (wsClients st) →
  (∀ r, r ∈ wsClients st → r ∈ dom (heap st)) →
  c ∈ wsClients st →
  let st1 := (on_pong c st).2 in
  Terminated c ∉ new_effects st1 (heartbeat st1).2.
Proof.
  intros Hnd Hreg Hc st1 Hin.
  apply terminated_was_dead in Hin as (_ & Hdead & _); [|done].
  apply Hreg, elem_of_dom in Hc as [w Hw].
  unfold st1, on_pong, set_isAlive, modify, the_ws in Hdead. cbn in Hdead.
  rewrite lookup_alter_eq, Hw in Hdead. done.
Qed.

(** ** The wrapper can be forged *)

Lemma sent_frames_app a b : sent_frames (a ++ b) = sent_frames a ++ sent_frames b.
Proof. apply omap_app. Qed.

Lemma sent_frames_frames msg l :
  sent_frames (frames msg l) = map (fun c => (c, msg)) l.
Proof. induction l as [|c l IH]; [done|]. simpl. by rewrite <- IH. Qed.

Lemma sent_frames_settle msg st : sent_frames (settle msg st) = [].
Proof.
  unfold settle.
  by destruct (abandoned_at st (wsClients st)), (channel_open st).
Qed.

(** X14.  A client message whose text parses to the wrapper
    [{source: realtime, payload: p}] is relayed as it is: the sockets
    get from it exactly the frames, in the same order, that they get
    from a queue delivery whose content parses to [p].  The wrapper does
    not tell a receiver that a frame came from the queue. *)
Theorem wrapper_can_be_forged (text : string) (msg : queue_msg) (p : json)
    (st : relay) :
  JSON_parse text = Some (wrap p) →
  JSON_parse (content msg) = Some p →
  sent_frames (new_effects st (on_message text st).2)
  = sent_frames (new_effects st (consumer (Some msg) st).2).
Proof.
  intros Htext Hmsg.
  rewrite on_message_run, consumer_run, Htext. cbn [snd].
  rewrite !new_effects_emit_all. unfold payload_of. rewrite Hmsg.
  change (Log LogQueueMessage :: ?l) with ([Log LogQueueMessage] ++ l).
  rewrite !sent_frames_app, !sent_frames_frames, sent_frames_settle.
  change (sent_frames [Log LogQueueMessage]) with (@nil (ref * string)).
  rewrite app_nil_l. f_equal.
  by destruct (abandoned_at st (wsClients st)).
Qed.

(** ** What the browser client makes of the relay's frames *)

Lemma normalize_wrap p :
  normalize (wrap p) = if truthy p then p else wrap p.
Proof. unfold normalize, wrap. cbn. by destruct (truthy p). Qed.

Lemma handle_wrap (p : json) (st : client) :
  truthy_js (prop p "source") && truthy_js (prop p "payload") = false →
  handle_parsed (wrap p) st = handle_parsed p st.
Proof.
  intros Hp. unfold handle_parsed. rewrite normalize_wrap.
  assert (normalize p = p) as ->.
  { unfold normalize. rewrite <- andb_assoc, Hp, andb_false_r. done. }
  destruct (truthy p) eqn:Ht; rewrite ?Ht; reflexivity.
Qed.

(** X15.  The client takes a frame wrapped by the relay as it takes the
    bare message: for a payload [p] that is not itself a wrapper (it has
    no truthy [source] or no truthy [payload]), handling
    [{source: realtime, payload: p}] and handling [p] end in the same
    state. *)
Theorem client_unwraps (p : json) (st : client) :
  truthy_js (prop p "source") && truthy_js (prop p "payload") = false →
  handle_parsed (wrap p) st = handle_parsed p st.
Proof. apply handle_wrap. Qed.

(** X16.  Queue content that is not JSON reaches every open socket as
    the frame [{source: realtime, payload: {raw: content}}], and a client
    that handles that frame changes nothing: no item is selected and none
    is added. *)
Theorem client_ignores_raw_content (msg : queue_msg) (st : relay) (c : ref)
    (cl : client) :
  let frame := JSON_stringify (wrap (raw (content msg))) in
  JSON_parse (content msg) = None →
  JSON_parse frame = Some (wrap (raw (content msg))) →
  (∀ x, x ∈ wsClients st → send_fails st x = false) →
  c ∈ wsClients st →
  is_open st c = true →
  Sent c frame ∈ new_effects st (consumer (Some msg) st).2
  ∧ handleIncomingMessage frame cl = Handled cl.
Proof.
  intros frame Hcontent Hframe Hsend Hc Ho. split.
  - rewrite consumer_run. cbn [snd]. rewrite new_effects_emit_all.
    unfold payload_of. rewrite Hcontent.
    destruct (delivered_no_failure st (wsClients st) Hsend) as [-> _].
    apply elem_of_cons. right. apply elem_of_app. left.
    apply list_elem_of_fmap. exists c. split; [done|].
    by apply list_elem_of_filter.
  - unfold handleIncomingMessage. by rewrite Hframe.
Qed.

Lemma number_eqb_refl x : number_eqb x x = true.
Proof.
  destruct x as [negative m e|negative]; simpl; [|apply Bool.eqb_reflx].
  destruct (m =? 0)%N eqn:Hm; [done|].
  destruct (shortest m e) as [s e'].
  by rewrite Bool.eqb_reflx, N.eqb_refl, Z.eqb_refl.
Qed.

Lemma strict_eq_refl v : primitive v = true → strict_eq v v = true.
Proof.
  destruct v as [[| b | n | s | l | f]|]; try done; intros _; simpl.
  - apply Bool.eqb_reflx.
  - apply number_eqb_refl.
  - apply String.eqb_refl.
Qed.

(** X17.  Handling the same share event a second time changes nothing,
    when the id of the shared item is not an object or array: the item
    is not added once more. *)
Theorem client_share_is_idempotent (parsed : json) (st st1 : client) :
  handle_parsed parsed st = Handled st1 →
  primitive (selectedId st1) = true →
  handle_parsed parsed st1 = Handled st1.
Proof.
  unfold handle_parsed.
  destruct (truthy (normalize parsed)
            && strict_eq (prop (normalize parsed) "action")
                 (Some (JString "share_item"))
            && truthy_js (prop (normalize parsed) "item")) eqn:Hguard.
  - destruct (prop (normalize parsed) "item") as [shared|] eqn:Hitem.
    + apply andb_prop in Hguard as [_ Hshared]. cbn in Hshared.
      destruct (some_has_id (items st) (prop shared "id")) as [[]|] eqn:Hsome;
        [| |done].
      * intros [= <-] _. cbn. by rewrite Hsome.
      * intros [= <-] Hprim. cbn in *.
        destruct shared as [| b | n | s | l | f]; try done;
          by rewrite strict_eq_refl.
    + intros [= <-] _. reflexivity.
  - intros [= <-] _. reflexivity.
Qed.

(** ** Reconnection delays of the client *)

Lemma reconnect_delays_lookup n : ∀ d i,
  (i < n)%nat → reconnect_delays n d !! i = Some (delay_after i d).
Proof.
  induction n as [|n IH]; intros d i Hi; [lia|].
  destruct i as [|i]; simpl; [done|]. apply IH. lia.
Qed.

(** X18.  After the connection has been open, the delay of the [i]-th
    reconnection in a row (counting from 0) is
    [min (1000 * 2^i) 30000] ms: 1000, 2000, 4000, 8000, 16000, then
    30000 for good. *)
Theorem reconnect_delay (n i : nat) :
  (i < n)%nat →
  reconnect_delays n 1000 !! i = Some (Z.min (1000 * 2 ^ Z.of_nat i) 30000).
Proof.
  intros Hi. rewrite reconnect_delays_lookup by done. f_equal.
  destruct i as [|i]; [reflexivity|]. apply delay_after_closed.
Qed.

(** ** From one client to the others *)

Lemma handle_share_event item cl has :
  truthy item = true →
  some_has_id (items cl) (prop item "id") = Some has →
  handle_parsed (share_event item) cl
  = Handled {| items := if has then items cl else item :: items cl;
               selectedId := prop item "id" |}.
Proof.
  intros Hitem Hsome. unfold handle_parsed.
  change (normalize (share_event item)) with (share_event item).
  change (prop (share_event item) "action") with (Some (JString "share_item")).
  change (prop (share_event item) "item") with (Some item).
  cbn [truthy share_event strict_eq truthy_js andb]. 
  change (String.eqb "share_item" "share_item") with true.
  cbn [andb]. rewrite Hitem, Hsome. by destruct has.
Qed.

(** X19.  A share event sent by a client reaches every open socket, the
    sender's too, as the text the client sent, and a client that handles
    it selects the id of the shared item and puts the item first in its
    list unless an item with that id is there already. *)
Theorem shared_item_is_selected (item : json) (st : relay) (c : ref)
    (cl : client) (has : bool) :
  let message := JSON_stringify (share_event item) in
  JSON_parse message = Some (share_event item) →
  (∀ x, x ∈ wsClients st → send_fails st x = false) →
  c ∈ wsClients st →
  is_open st c = true →
  truthy item = true →
  some_has_id (items cl) (prop item "id") = Some has →
  Sent c message ∈ new_effects st (on_message message st).2
  ∧ handleIncomingMessage message cl
    = Handled {| items := if has then items cl else item :: items cl;
                 selectedId := prop item "id" |}.
Proof.
  intros message Hparse Hsend Hc Ho Hitem Hsome. split.
  - rewrite on_message_run, Hparse. cbn [snd]. rewrite new_effects_emit_all.
    destruct (delivered_no_failure st (wsClients st) Hsend) as [-> ->].
    rewrite app_nil_r. unfold frames.
    apply list_elem_of_fmap. exists c. split; [done|].
    by apply list_elem_of_filter.
  - unfold handleIncomingMessage. rewrite Hparse.
    by apply handle_share_event.
Qed.

(** X20.  A share event delivered by the queue reaches every open socket
    in the wrapper, and a client ends in the same state whether it
    handles that frame or the bare event a peer would have sent. *)
Theorem queue_share_is_selected (item : json) (msg : queue_msg) (st : relay)
    (c : ref) (cl : client) :
  let frame := JSON_stringify (wrap (share_event item)) in
  JSON_parse (content msg) = Some (share_event item) →
  JSON_parse frame = Some (wrap (share_event item)) →
  JSON_parse (JSON_stringify (share_event item)) = Some (share_event item) →
  (∀ x, x ∈ wsClients st → send_fails st x = false) →
  c ∈ wsClients st →
  is_open st c = true →
  Sent c frame ∈ new_effects st (consumer (Some msg) st).2
  ∧ handleIncomingMessage frame cl
    = handleIncomingMessage (JSON_stringify (share_event item)) cl.
Proof.
  intros frame Hcontent Hframe Hbare Hsend Hc Ho. split.
  - rewrite consumer_run. cbn [snd]. rewrite new_effects_emit_all.
    unfold payload_of. rewrite Hcontent.
    destruct (delivered_no_failure st (wsClients st) Hsend) as [-> _].
    apply elem_of_cons. right. apply elem_of_app. left.
    apply list_elem_of_fmap. exists c. split; [done|].
    by apply list_elem_of_filter.
  - unfold handleIncomingMessage. rewrite Hframe, Hbare.
    by apply handle_wrap.
Qed.

(** ** Silent clients leave one per tick *)

Lemma filter_nothing {A} (P : A → Prop) `{∀ x, Decision (P x)} (l : list A) :
  (∀ y, y ∈ l → ¬ P y) → filter P l = [].
Proof using Type.
  induction l as [|x l IH]; intros Hl; [done|].
  rewrite filter_cons_False by (apply Hl; constructor).
  apply IH. intros y Hy. apply Hl. by constructor.
Qed.

Lemma filter_everything {A} (P : A → Prop) `{∀ x, Decision (P x)} (l : list A) :
  (∀ y, y ∈ l → P y) → filter P l = l.
Proof using Type.
  induction l as [|x l IH]; intros Hl; [done|].
  rewrite filter_cons_True by (apply Hl; constructor).
  f_equal. apply IH. intros y Hy. apply Hl. by constructor.
Qed.

Lemma close_loop_far L : ∀ st y,
  y ∉ L →
  the_ws (for_of L (fun client => set_readyState client CLOSED;; on_close client)
            st).2 y
  = the_ws st y.
Proof using Type.
  induction L as [|x L IH]; intros st y Hy; [done|].
  apply not_elem_of_cons in Hy as [Hyx HyL].
  simpl. rewrite !run_bind.
  change (set_readyState x CLOSED st) with
    (Normal tt, set_heap (alter (fun w => {| readyState := CLOSED;
       isAlive := isAlive w; send_throws := send_throws w |}) x (heap st)) st).
  cbv beta iota. rewrite run_on_close. rewrite IH by done.
  unfold the_ws. cbn. by rewrite lookup_alter_ne.
Qed.

Lemma tick_evicts_head c post st :
  wsClients st = c :: post →
  NoDup (wsClients st) →
  isAlive (the_ws st c) = false →
  readyState (the_ws st c) ≠ CLOSED →
  (∀ y, y ∈ post → readyState (the_ws st y) ≠ CLOSING) →
  wsClients (monitor_tick st).2 = post
  ∧ ∀ y, y ∈ post → the_ws (monitor_tick st).2 y = the_ws st y.
Proof using Type.
  intros Hreg Hnd Hc Hopen Hpost.
  rewrite Hreg in Hnd. apply NoDup_cons in Hnd as [Hcp Hndp].
  assert (NoDup ([] ++ [c])) as Hnd' by (apply NoDup_singleton).
  destruct (heartbeat_loop_first_dead c post [] st Hnd'
              ltac:(by intros ? ?%elem_of_nil) Hc)
    as (st1 & E1 & _ & (Hw1 & _) & Hfar & _ & Hclosing).
  change ([] ++ c :: post) with (c :: post) in E1.
  change ([] ++ [c]) with [c] in Hfar.
  assert (∀ y, y ∈ post → the_ws st1 y = the_ws st y) as Hsame.
  { intros y Hy. apply Hfar. intros ->%list_elem_of_singleton. done. }
  assert (filter (fun x => closing st1 x = true) (wsClients st1) = [c]) as HF.
  { rewrite Hw1, Hreg. rewrite filter_cons_True.
    - f_equal. apply filter_nothing. intros y Hy Hcl.
      unfold closing in Hcl. apply bool_decide_eq_true_1 in Hcl.
      rewrite Hsame in Hcl by done. by apply (Hpost y).
    - unfold closing. apply bool_decide_eq_true_2. by apply Hclosing. }
  unfold monitor_tick. rewrite run_bind, run_heartbeat, Hreg, E1.
  cbv beta iota. unfold fire_close_events. rewrite run_bind. cbn [get].
  rewrite HF. split.
  - destruct (close_loop [c] st1) as (st2 & logs & E2 & Hw2 & _).
    rewrite E2. cbn [snd]. rewrite Hw2, Hw1, Hreg.
    rewrite filter_cons_False
      by (intros Hn; apply Hn; constructor).
    apply filter_everything. intros y Hy ->%list_elem_of_singleton. done.
  - intros y Hy. rewrite close_loop_far.
    + by apply Hsame.
    + intros ->%list_elem_of_singleton. done.
Qed.

(** X21.  Clients that have all stopped answering are not evicted
    together: when every registered socket is open and has its flag
    cleared, each firing of the timer takes out exactly the first of them,
    so after [k] firings the registry is what it was without its first
    [k] sockets. *)
Theorem silent_clients_leave_one_per_tick (k : nat) (st : relay) :
  NoDup (wsClients st) →
  (∀ x, x ∈ wsClients st →
     isAlive (the_ws st x) = false ∧ readyState (the_ws st x) = OPEN) →
  wsClients (ticks k st) = drop k (wsClients st).
Proof using Type.
  revert st. induction k as [|k IH]; intros st Hnd Hall; [done|].
  simpl. destruct (wsClients st) as [|c post] eqn:Hreg.
  - assert (wsClients (monitor_tick st).2 = []) as Hw.
    { unfold monitor_tick. rewrite run_bind, run_heartbeat, Hreg. simpl.
      unfold fire_close_events. rewrite run_bind. cbn [get]. by rewrite Hreg. }
    rewrite IH.
    + rewrite Hw. by destruct k.
    + rewrite Hw. constructor.
    + rewrite Hw. by intros ? ?%elem_of_nil.
  - destruct (Hall c ltac:(constructor)) as [Hc Ho].
    apply NoDup_cons in Hnd as Hnd'. destruct Hnd' as [_ Hndp].
    destruct (tick_evicts_head c post st) as [Hw Hsame].
    + done.
    + by rewrite Hreg.
    + done.
    + by rewrite Ho.
    + intros y Hy. destruct (Hall y ltac:(by constructor)) as [_ ->]. done.
    + rewrite IH.
      * by rewrite Hw.
      * by rewrite Hw.
      * rewrite Hw. intros x Hx. rewrite Hsame by done.
        apply Hall. by constructor.
Qed.

End Relay.

(** ** Concrete registries *)


(** C3: client 2 is closed when [broadcast] runs and is still in the
    registry when it has returned. *)
Lemma broadcast_removes_nothing :
  let st := relay_of [socket OPEN true false; socket CLOSED true false] in
  is_open st 2%nat = false
  ∧ (broadcast "m" st).1 = Normal tt
  ∧ wsClients (broadcast "m" st).2 = [1%nat; 2%nat].
Proof. vm_compute. done. Qed.

(** ** Concrete runs of the retry loop *)

(** C4: with an initial delay of 60000 ms the first wait is 60000 ms
    (the draw is 0), above the ceiling plus any jitter: it is not
    [min (60000 * 2^0) 30000 + jitter] for any jitter below 300. *)
Lemma backoff_first_wait_uncapped :
  sleeps (trace (connectToRabbit 30 60000 broker_down random_zero nobody 2 boot).2)
    !! 0%nat = Some 60000
  ∧ Z.min (60000 * 2 ^ (1 - 1)) 30000 + 300 ≤ 60000.
Proof. vm_compute. split; [reflexivity | discriminate]. Qed.

Lemma backoff_wait_witness :
  ∃ new,
    trace (connectToRabbit 30 1000 (broker_up_from 4) random_half nobody 5 boot).2
    = trace boot ++ new
    ∧ sleeps new !! 2%nat = Some (Z.min (1000 * 2 ^ 2) 30000 + 150)
    ∧ 0 ≤ 150 < 300.
Proof.
  apply (backoff_wait 30 1000 (broker_up_from 4) random_half nobody 3 5 boot).
  - lia.
  - lia.
  - intros i Hi. apply bool_decide_eq_false_2. lia.
  - lia.
Defined.

(** C5: with [MAX_RETRIES = 0] and a broker that is down, one attempt is
    made before the error is raised: more than [MAX_RETRIES]. *)
Lemma retry_bound_zero_attempts_once :
  (connectToRabbit 0 1000 broker_down random_zero nobody 5 boot).1
  = Throw (ConnectError 1)
  ∧ attempts (trace (connectToRabbit 0 1000 broker_down random_zero nobody 5 boot).2)
    = [1].
Proof. vm_compute. done. Qed.

Lemma retry_exhaustion_witness :
  ∃ st' new,
    connectToRabbit 3 1000 broker_down random_half nobody 5 boot
    = (Throw (ConnectError 3), st')
    ∧ trace st' = trace boot ++ new
    ∧ attempts new = [1; 2; 3].
Proof.
  apply (retry_exhaustion 3 1000 broker_down random_half nobody 5 boot).
  - intros i Hi. reflexivity.
  - vm_compute. discriminate.
Defined.

(** ** Concrete deliveries *)

(** C6: content that is not JSON is wrapped as raw content, sent to the
    open client and acknowledged. *)
Lemma consumer_wraps_and_acks_witness :
  let msg := {| deliveryTag := 7; content := "not-json" |} in
  let st := relay_of [socket OPEN true false; socket CLOSED true false] in
  consumer (parse_only (share_item 7)) (Some msg) st
  = (Normal tt,
     emit_all [Log LogQueueMessage;
               Sent 1%nat (JSON_stringify (wrap (raw "not-json")));
               Acked 7] st).
Proof.
  intros msg st.
  refine (consumer_wraps_and_acks (parse_only (share_item 7)) msg st _ _).
  - intros c Hc. vm_compute in Hc.
    apply list_elem_of_In in Hc. simpl in Hc.
    destruct Hc as [<-|[<-|[]]]; reflexivity.
  - reflexivity.
Defined.

(** C8: a share event from the queue is sent to both clients and
    acknowledged, once. *)
Lemma consumer_settles_once_witness :
  let msg := {| deliveryTag := 7; content := JSON_stringify (share_item 7) |} in
  let st := relay_of [socket OPEN true false; socket OPEN true false] in
  ∃ new,
    consumer (parse_only (share_item 7)) (Some msg) st = (Normal tt, emit_all new st)
    ∧ settlements new = [Acked 7].
Proof.
  intros msg st.
  apply (consumer_settles_once (parse_only (share_item 7)) msg st).
  reflexivity.
Defined.

(** C7: client 2 is registered and closing, client 1 sends a JSON
    message: client 2 gets nothing.  And when the send to client 1
    raises, client 2, open and the sender, gets nothing either; the
    handler logs the message as not JSON. *)
Lemma on_message_misses_registered_clients :
  let message := JSON_stringify (share_item 3) in
  (on_message (parse_only (share_item 3)) message
     (relay_of [socket OPEN true false; socket CLOSING true false])).2
  = emit_all [Sent 1%nat message]
      (relay_of [socket OPEN true false; socket CLOSING true false])
  ∧ (on_message (parse_only (share_item 3)) message
       (relay_of [socket OPEN true true; socket OPEN true false])).2
    = emit_all [Log LogNotJSON]
        (relay_of [socket OPEN true true; socket OPEN true false]).
Proof. vm_compute. done. Qed.

Lemma on_message_relays_witness :
  let message := JSON_stringify (share_item 3) in
  let st := relay_of [socket OPEN true false; socket OPEN true false] in
  (on_message (parse_only (share_item 3)) message st).2
  = emit_all [Sent 1%nat message; Sent 2%nat message] st.
Proof.
  intros message st.
  refine (proj1 (proj2 (proj2
            (on_message_relays (parse_only (share_item 3)) message st)))
            (share_item 3) _ _).
  - reflexivity.
  - intros c Hc. vm_compute in Hc.
    apply list_elem_of_In in Hc. simpl in Hc.
    destruct Hc as [<-|[<-|[]]]; reflexivity.
Defined.

(** ** Concrete ticks of the heartbeat *)

(** C1: clients 1 and 2 have not answered the last ping and client 3
    has.  The tick terminates client 1 and returns: client 2 stays in the
    registry, open and never terminated, and client 3 is neither pinged
    nor has its flag cleared. *)
Theorem heartbeat_stops_at_first_dead :
  let st := relay_of [socket OPEN false false; socket OPEN false false;
                      socket OPEN true false] in
  let st' := (monitor_tick st).2 in
  wsClients st' = [2%nat; 3%nat]
  ∧ trace st' = [Terminated 1%nat; Log (LogClientDisconnected 2)]
  ∧ the_ws st' 2%nat = socket OPEN false false
  ∧ the_ws st' 3%nat = socket OPEN true false.
Proof. vm_compute. done. Qed.

(** ** Concrete startups *)

(** C9: the broker answers the first attempt, and a client connects
    while that attempt is awaited.  The client is accepted and
    registered before the queue connection is established, before
    consumption begins and before the heartbeat timer is set. *)
Lemma client_accepted_before_queue_connection :
  trace (main 30 1000 (broker_up_from 1) random_zero one_early_client 3 boot).2
  = [Log (LogConnecting 1); Connect 1; Log (LogClientConnected 1);
     Log LogConnected; AssertQueue true; Log LogConsuming; Consume false;
     SetInterval 30000; Log LogListening; OnSIGINT]
  ∧ length (wsClients
      (main 30 1000 (broker_up_from 1) random_zero one_early_client 3 boot).2)
    = 1%nat.
Proof. vm_compute. done. Qed.

Lemma startup_order_witness :
  ∃ before,
    trace (main 30 1000 (broker_up_from 2) random_half one_early_client 3 boot).2
    = before ++ [Log LogConnected; AssertQueue true; Log LogConsuming;
                 Consume false; SetInterval 30000; Log LogListening; OnSIGINT]
    ∧ Log LogListening ∉ before.
Proof.
  apply (proj1 (startup_order 30 1000 (broker_up_from 2) random_half
                  one_early_client 3)).
  apply list_elem_of_In. vm_compute.
  repeat (first [left; reflexivity | right]).
Defined.

(** ** Concrete ticks, event loops and clients *)

(** Case analysis on the membership of a client in a concrete registry. *)
Ltac each_client H :=
  vm_compute in H; apply list_elem_of_In in H; simpl in H;
  repeat (destruct H as [<-|H]); [..|destruct H].

Ltac concrete_registry :=
  apply (bool_decide_unpack _); vm_compute; exact I.

Ltac in_heap := apply elem_of_dom; vm_compute; eexists; reflexivity.

Lemma heartbeat_all_alive_witness :
  let st := relay_of [socket OPEN true false; socket CLOSING true false] in
  ∃ st',
    heartbeat st = (Normal tt, st')
    ∧ new_effects st st' = [Pinged 1%nat]
    ∧ wsClients st' = [1%nat; 2%nat]
    ∧ ∀ x, x ∈ wsClients st →
        isAlive (the_ws st' x) = false
        ∧ readyState (the_ws st' x) = readyState (the_ws st x).
Proof.
  intros st. apply (heartbeat_all_alive st).
  - concrete_registry.
  - intros x Hx. each_client Hx; reflexivity.
Defined.

Lemma heartbeat_terminates_only_dead_witness :
  let st := relay_of [socket OPEN true false; socket OPEN false false;
                      socket OPEN false false] in
  2%nat ∈ wsClients st
  ∧ isAlive (the_ws st 2%nat) = false
  ∧ ∀ d, Terminated d ∈ new_effects st (heartbeat st).2 → d = 2%nat.
Proof.
  intros st. apply (heartbeat_terminates_only_dead st 2%nat).
  - concrete_registry.
  - apply list_elem_of_In. vm_compute. right. left. reflexivity.
Defined.

Lemma monitor_tick_evicts_first_dead_witness :
  let st := relay_of [socket OPEN true false; socket OPEN false false;
                      socket OPEN false false] in
  ∃ st',
    monitor_tick st = (Normal tt, st')
    ∧ Terminated 2%nat ∈ new_effects st st'
    ∧ (2%nat ∉ wsClients st')
    ∧ ∀ y, y ∈ wsClients st → y ≠ 2%nat →
        readyState (the_ws st y) ≠ CLOSING → y ∈ wsClients st'.
Proof.
  intros st.
  apply (monitor_tick_evicts_first_dead st [1%nat] 2%nat [3%nat]).
  - reflexivity.
  - concrete_registry.
  - intros x Hx. each_client Hx; reflexivity.
  - reflexivity.
  - vm_compute. discriminate.
Defined.

Lemma silent_clients_leave_one_per_tick_witness :
  let st := relay_of [socket OPEN false false; socket OPEN false false;
                      socket OPEN false false] in
  wsClients (ticks 2 st) = [3%nat].
Proof.
  intros st. apply (silent_clients_leave_one_per_tick 2 st).
  - concrete_registry.
  - intros x Hx. each_client Hx; split; reflexivity.
Defined.

Lemma frames_go_to_registered_open_sockets_witness :
  let st := run_events (parse_only (share_item 3))
              [EvConnection (socket OPEN false false); EvHeartbeat]
              (main 30 1000 (broker_up_from 1) random_zero one_early_client 3
                 boot).2 in
  1%nat ∈ wsClients st ∧ is_open st 1%nat = true.
Proof.
  apply (frames_go_to_registered_open_sockets (parse_only (share_item 3))
           30 1000 (broker_up_from 1) random_zero one_early_client 3
           [EvConnection (socket OPEN false false); EvHeartbeat]
           (EvMessage (JSON_stringify (share_item 3))) 1%nat
           (JSON_stringify (share_item 3))).
  apply list_elem_of_In. vm_compute. right. left. reflexivity.
Defined.

Lemma no_frame_after_close_witness :
  let message := JSON_stringify (share_item 3) in
  let st := relay_of [socket OPEN true false; socket OPEN true false] in
  let es := [EvMessage message; EvConnection (socket OPEN false false);
             EvHeartbeat; EvDelivery (Some {| deliveryTag := 1; content := message |})] in
  let st1 := (on_close 1%nat st).2 in
  (1%nat ∉ wsClients (run_events (parse_only (share_item 3)) es st1))
  ∧ ∀ m, Sent 1%nat m ∉ new_effects st1 (run_events (parse_only (share_item 3)) es st1).
Proof.
  intros message st es.
  apply (no_frame_after_close (parse_only (share_item 3)) st 1%nat es).
  - split; [concrete_registry|].
    intros r Hr. each_client Hr; in_heap.
  - apply list_elem_of_In. vm_compute. left. reflexivity.
Defined.

Lemma broadcast_exactly_once_witness :
  let st := relay_of [socket OPEN true false; socket CLOSED true false;
                      socket OPEN true false] in
  occurrences (Sent 3%nat "m") (new_effects st (broadcast "m" st).2) = 1%nat.
Proof.
  intros st. apply (broadcast_exactly_once "m" st 3%nat).
  - concrete_registry.
  - intros x Hx. each_client Hx; reflexivity.
  - apply list_elem_of_In. vm_compute. right. right. left. reflexivity.
  - reflexivity.
Defined.

Lemma connect_then_close_witness :
  let st := relay_of [socket OPEN true false] in
  let w := socket OPEN false false in
  let client := fresh (dom (heap st)) in
  wsClients (accept w st).2 = wsClients st ++ [client]
  ∧ wsClients (on_close client (accept w st).2).2 = wsClients st.
Proof.
  intros st w. apply (connect_then_close w st).
  - reflexivity.
  - intros r Hr. each_client Hr; in_heap.
Defined.

Lemma connect_returns_at_first_answer_witness :
  ∃ st' new,
    connectToRabbit 30 1000 (broker_up_from 3) random_half nobody 5 boot
    = (Normal tt, st')
    ∧ channel_open st' = true
    ∧ trace st' = trace boot ++ new
    ∧ attempts new = [1; 2; 3]
    ∧ length (sleeps new) = 2%nat.
Proof.
  apply (connect_returns_at_first_answer 30 1000 (broker_up_from 3) random_half
           nobody 3 5 boot).
  - lia.
  - intros i Hi. apply bool_decide_eq_false_2. lia.
  - reflexivity.
  - right. lia.
  - lia.
Defined.

Lemma waits_are_bounded_witness :
  ∃ new,
    trace (connectToRabbit 3 1000 broker_down random_half nobody 5 boot).2
    = trace boot ++ new
    ∧ Z.of_nat (length (sleeps new)) = 2
    ∧ Forall (fun w => 1000 ≤ w < 30300) (sleeps new).
Proof.
  apply (waits_are_bounded 3 1000 broker_down random_half nobody 5 boot).
  - lia.
  - intros i Hi. reflexivity.
  - vm_compute. discriminate.
Defined.

Lemma start_exits_when_broker_is_down_witness :
  ∃ st' tr,
    main 3 1000 broker_down random_half nobody 5 boot = (Normal tt, st')
    ∧ trace st' = tr ++ [Log LogStartFailed; Exit 1]
    ∧ Forall (fun e => serving e = false) tr
    ∧ channel_open st' = false.
Proof.
  apply (start_exits_when_broker_is_down 3 1000 broker_down random_half nobody 5).
  - intros i Hi. reflexivity.
  - vm_compute. discriminate.
Defined.

Lemma pong_protects_until_next_tick_witness :
  let st := relay_of [socket OPEN false false; socket OPEN true false] in
  let st1 := (on_pong 1%nat st).2 in
  Terminated 1%nat ∉ new_effects st1 (heartbeat st1).2.
Proof.
  intros st. apply (pong_protects_until_next_tick st 1%nat).
  - concrete_registry.
  - intros r Hr. each_client Hr; in_heap.
  - apply list_elem_of_In. vm_compute. left. reflexivity.
Defined.

Lemma wrapper_can_be_forged_witness :
  let parse := parse_table [share_item 7; wrap (share_item 7)] in
  let st := relay_of [socket OPEN true false; socket OPEN true false] in
  let msg := {| deliveryTag := 1; content := JSON_stringify (share_item 7) |} in
  sent_frames
    (new_effects st (on_message parse (JSON_stringify (wrap (share_item 7))) st).2)
  = sent_frames (new_effects st (consumer parse (Some msg) st).2).
Proof.
  intros parse st msg.
  apply (wrapper_can_be_forged parse (JSON_stringify (wrap (share_item 7))) msg
           (share_item 7) st).
  - reflexivity.
  - reflexivity.
Defined.

Lemma client_unwraps_witness :
  handle_parsed (wrap (share_item 7)) initial_client
  = handle_parsed (share_item 7) initial_client.
Proof. apply (client_unwraps (share_item 7) initial_client). reflexivity. Defined.

Lemma client_ignores_raw_content_witness :
  let parse := parse_only (wrap (raw "not-json")) in
  let st := relay_of [socket OPEN true false; socket OPEN true false] in
  let msg := {| deliveryTag := 1; content := "not-json" |} in
  let frame := JSON_stringify (wrap (raw "not-json")) in
  Sent 2%nat frame ∈ new_effects st (consumer parse (Some msg) st).2
  ∧ handleIncomingMessage parse frame initial_client = Handled initial_client.
Proof.
  intros parse st msg.
  apply (client_ignores_raw_content parse msg st 2%nat initial_client).
  - reflexivity.
  - reflexivity.
  - intros x Hx. each_client Hx; reflexivity.
  - apply list_elem_of_In. vm_compute. right. left. reflexivity.
  - reflexivity.
Defined.

Lemma client_share_is_idempotent_witness :
  let st1 := {| items := [JObject [("id"%string, JNumber (integer 7))]];
                selectedId := Some (JNumber (integer 7)) |} in
  handle_parsed (share_item 7) st1 = Handled st1.
Proof.
  intros st1.
  apply (client_share_is_idempotent (share_item 7) initial_client st1).
  - reflexivity.
  - reflexivity.
Defined.

Lemma reconnect_delay_witness :
  reconnect_delays 8 1000 !! 6%nat = Some 30000.
Proof. apply (reconnect_delay 8 6). lia. Defined.

Lemma shared_item_is_selected_witness :
  let item := JObject [("id"%string, JNumber (integer 7))] in
  let parse := parse_only (share_event item) in
  let st := relay_of [socket OPEN true false; socket OPEN true false] in
  let message := JSON_stringify (share_event item) in
  Sent 2%nat message ∈ new_effects st (on_message parse message st).2
  ∧ handleIncomingMessage parse message initial_client
    = Handled {| items := [item]; selectedId := Some (JNumber (integer 7)) |}.
Proof.
  intros item parse st.
  apply (shared_item_is_selected parse item st 2%nat initial_client false).
  - reflexivity.
  - intros x Hx. each_client Hx; reflexivity.
  - apply list_elem_of_In. vm_compute. right. left. reflexivity.
  - reflexivity.
  - reflexivity.
  - reflexivity.
Defined.

Lemma queue_share_is_selected_witness :
  let item := JObject [("id"%string, JNumber (integer 7))] in
  let parse := parse_table [share_event item; wrap (share_event item)] in
  let st := relay_of [socket OPEN true false; socket OPEN true false] in
  let msg := {| deliveryTag := 1; content := JSON_stringify (share_event item) |} in
  let frame := JSON_stringify (wrap (share_event item)) in
  Sent 1%nat frame ∈ new_effects st (consumer parse (Some msg) st).2
  ∧ handleIncomingMessage parse frame initial_client
    = handleIncomingMessage parse (JSON_stringify (share_event item)) initial_client.
Proof.
  intros item parse st msg.
  apply (queue_share_is_selected parse item msg st 1%nat initial_client).
  - reflexivity.
  - reflexivity.
  - reflexivity.
  - intros x Hx. each_client Hx; reflexivity.
  - apply list_elem_of_In. vm_compute. left. reflexivity.
  - reflexivity.
Defined.

(** ** Numbers as [JSON.stringify] prints them *)

(** 10^21 and 10^20, 1.5, 10^-7 and 10^-6, -123.456, negative zero, an
    infinity, and the largest double. *)
Example number_texts :
  map JSON_stringify
    [JNumber (integer (10 ^ 21)); JNumber (integer (10 ^ 20));
     JNumber (Decimal false 15 (-1)); JNumber (Decimal false 1 (-7));
     JNumber (Decimal false 1 (-6)); JNumber (Decimal true 123456 (-3));
     JNumber (Decimal true 0 0); JNumber (Infinity false);
     JNumber (Decimal false 17976931348623157 292)]
  = ["1e+21"; "100000000000000000000"; "1.5"; "1e-7"; "0.000001"; "-123.456";
     "0"; "null"; "1.7976931348623157e+308"]%string.
Proof. vm_compute. done. Qed.

(** ** The examples of the specification *)

(** A queue delivery of a share event is broadcast in the wrapper. *)
Example queue_wrapping :
  let text := written "{'action':'share_item','item':{'id':7}}" in
  let st := relay_of [socket OPEN true false; socket OPEN true false] in
  JSON_stringify (share_item 7) = text
  ∧ trace (consumer (parse_only (share_item 7))
             (Some {| deliveryTag := 1; content := text |}) st).2
    = [Log LogQueueMessage;
       Sent 1%nat (written
         "{'source':'realtime','payload':{'action':'share_item','item':{'id':7}}}");
       Sent 2%nat (written
         "{'source':'realtime','payload':{'action':'share_item','item':{'id':7}}}");
       Acked 1].
Proof. vm_compute. done. Qed.

(** A queue delivery that is not JSON is broadcast as raw content and
    acknowledged. *)
Example malformed_queue_payload :
  let st := relay_of [socket OPEN true false] in
  trace (consumer (parse_only (share_item 7))
           (Some {| deliveryTag := 1; content := "not-json" |}) st).2
  = [Log LogQueueMessage;
     Sent 1%nat (written "{'source':'realtime','payload':{'raw':'not-json'}}");
     Acked 1].
Proof. vm_compute. done. Qed.

(** A message of a client goes to every client, the sender among them,
    as it is. *)
Example peer_relay_passthrough :
  let text := written "{'action':'share_item','item':{'id':3}}" in
  let st := relay_of [socket OPEN true false; socket OPEN true false] in
  trace (on_message (parse_only (share_item 3)) text st).2
  = [Sent 1%nat text; Sent 2%nat text].
Proof. vm_compute. done. Qed.

(** A single client that never answers: the first tick clears its flag
    and pings it, the second terminates it and its close event takes it
    out of the registry. *)
Example silent_client_evicted :
  let st := relay_of [socket OPEN true false] in
  let st1 := (monitor_tick st).2 in
  let st2 := (monitor_tick st1).2 in
  wsClients st1 = [1%nat]
  ∧ trace st1 = [Pinged 1%nat]
  ∧ wsClients st2 = []
  ∧ trace st2 = [Pinged 1%nat; Terminated 1%nat; Log (LogClientDisconnected 0)].
Proof. vm_compute. done. Qed.

(** A client that answers the ping keeps its place. *)
Example answering_client_stays :
  let st := relay_of [socket OPEN true false] in
  let st1 := (monitor_tick st).2 in
  let st2 := (monitor_tick (on_pong 1%nat st1).2).2 in
  wsClients st2 = [1%nat]
  ∧ trace st2 = [Pinged 1%nat; Pinged 1%nat].
Proof. vm_compute. done. Qed.
